(** * cdr3fire: k-mer accelerated full-string regex matching

    A shallow embedding of [src/cdr3fire/core.py]:

    - [build_3mer_index]   the inverted index from 3-mers to string ids,
    - [query_3mers]        the intersection of posting sets,
    - [regex_literal_3mers] the literal extractor over the parsed pattern,
    - [match_regexes]      the orchestrator filling the sparse matrix,
    - [match_regexes_against_cdr3s] the same loop returning id lists.

    Python values are modelled as follows: [str] is [string], a [set] is a
    [gset], the [defaultdict(set)] index is a [gmap string (gset nat)], the
    [lil_matrix] is its shape together with the finite map of stored cells,
    and a call that may raise lives in the exception monad [py]. *)

From Stdlib Require Import ZArith Ascii String List Lia.
From stdpp Require Import base option list gmap strings fin_maps fin_sets.

Set Warnings "-clear-no-such-hyp,-register-all".

Local Open Scope string_scope.
Local Open Scope Z_scope.
Local Open Scope nat_scope.
Local Open Scope list_scope.
Local Open Scope stdpp_scope.

(** ** Exceptions *)

(** The exception classes that the modelled code can meet.  [re_error] is
    [re.error] (the specification's pattern syntax error), raised by
    [sre_parse.parse] and [re.compile]. *)
Inductive exn : Type :=
  | re_error (msg : string)
  | TypeError (msg : string)
  | IndexError (msg : string)
  | RecursionError (msg : string)
  | NotImplementedError (msg : string).

Inductive py (A : Type) : Type :=
  | Ok (a : A)
  | Raise (e : exn).
Arguments Ok {A} a.
Arguments Raise {A} e.

#[global] Instance py_ret : MRet py := λ A a, Ok a.
#[global] Instance py_bind : MBind py := λ A B k m,
  match m with
  | Ok a => k a
  | Raise e => Raise e
  end.

Definition raises {A} (m : py A) : Prop := ∃ e, m = Raise e.

(** ** Built-ins *)

(** [range(n)]: empty when [n <= 0]. *)
Definition range (n : Z) : list nat := seq 0 (Z.to_nat n).

(** [enumerate(l)] *)
Definition enumerate {A} (l : list A) : list (nat * A) :=
  zip (seq 0 (length l)) l.

(** [len(s)] for a [str]. *)
Definition len (s : string) : Z := Z.of_nat (String.length s).

(** [s[j:j+3]] and in general [s[lo:hi]] for [0 <= lo]: slicing never
    raises, it is clipped at the end of the string. *)
Definition slice (s : string) (lo hi : nat) : string :=
  string_of_list_ascii (take (hi - lo) (drop lo (list_ascii_of_string s))).

(** [''.join(buffer[lo:hi])] for a list of one-character strings. *)
Definition join_slice (buffer : list ascii) (lo hi : nat) : string :=
  string_of_list_ascii (take (hi - lo) (drop lo buffer)).

(** [l[j]] on a list: raises [IndexError] out of range. *)
Definition getitem {A} (l : list A) (j : nat) : py A :=
  match l !! j with
  | Some x => Ok x
  | None => Raise (IndexError "list index out of range")
  end.

(** [km] occurs in [s] as a contiguous substring. *)
Definition substring_of (km s : string) : Prop :=
  ∃ pre post, s = pre +:+ km +:+ post.

(** ** The k-mer index *)

(** [index.get(kmer, set())] *)
Definition posting (index : gmap string (gset nat)) (kmer : string) : gset nat :=
  default ∅ (index !! kmer).

(** [index[kmer].add(i)] on a [defaultdict(set)]. *)
Definition index_add (index : gmap string (gset nat)) (kmer : string) (i : nat)
  : gmap string (gset nat) :=
  <[kmer := posting index kmer ∪ {[i]}]> index.

(** The inner loop of [build_3mer_index] for the string [s] with id [i]. *)
Definition index_string (index : gmap string (gset nat)) (i : nat) (s : string)
  : gmap string (gset nat) :=
  foldl (λ index j, index_add index (slice s j (j + 3)) i) index (range (len s - 2)).

Definition build_3mer_index (strings : list string) : gmap string (gset nat) :=
  foldl (λ index '(i, s), index_string index i s) ∅ (enumerate strings).

(** [set.intersection] applied to the unpacked list [sets]: the unbound
    method needs a receiver, so it raises on no argument at all. *)
Definition set_intersection (sets : list (gset nat)) : py (gset nat) :=
  match sets with
  | [] => Raise (TypeError "unbound method set.intersection() needs an argument")
  | s :: rest => Ok (foldl (∩) s rest)
  end.

Definition query_3mers (index : gmap string (gset nat)) (kmers : list string)
  : py (gset nat) :=
  let sets := map (posting index) kmers in
  match sets with
  | [] => Ok ∅
  | _ :: _ => set_intersection sets
  end.

(** ** The parse tree of the host regex engine *)

(** The items [sre_parse] stores in a character set. *)
Inductive set_item : Type :=
  | SET_LITERAL (c : ascii)
  | SET_RANGE (lo hi : ascii).

(** The tokens [(op, av)] of a [sre_parse.SubPattern], for the operators of
    the regular fragment.  A repetition bound of [None] is [MAXREPEAT]. *)
Inductive token : Type :=
  | LITERAL (c : ascii)
  | NOT_LITERAL (c : ascii)
  | ANY
  | IN (negate : bool) (items : list set_item)
  | BRANCH (items : list (list token))
  | MAX_REPEAT (lo : nat) (hi : option nat) (item : list token)
  | MIN_REPEAT (lo : nat) (hi : option nat) (item : list token)
  | SUBPATTERN (capture : bool) (p : list token).

(** What [sre_parse.parse] returns: the top-level token sequence and the
    flags collected in [state.flags]. *)
Record SubPattern : Type := {
  state_flags : Z;
  data : list token
}.

Definition SRE_FLAG_IGNORECASE : Z := 2.
Definition SRE_FLAG_MULTILINE : Z := 8.
Definition SRE_FLAG_DOTALL : Z := 16.
Definition SRE_FLAG_UNICODE : Z := 32.

(** The interface this package uses of the host modules [sre_parse] and
    [re]: parsing a pattern, compiling it, and [Pattern.fullmatch] reduced
    to its truth value. *)
Class ReEngine : Type := {
  Pattern : Type;
  sre_parse_parse : string → py SubPattern;
  re_compile : string → py Pattern;
  fullmatch : Pattern → string → bool
}.

(** ** The literal extractor *)

(** The body shared by the two flush sites of [regex_literal_3mers]:
    [if len(buffer) >= 3: for i in range(len(buffer) - 2): kmers.add(...)]. *)
Definition flush_buffer (kmers : gset string) (buffer : list ascii) : gset string :=
  if (3 <=? Z.of_nat (length buffer))%Z
  then foldl (λ kmers i, kmers ∪ {[ join_slice buffer i (i + 3) ]}) kmers
             (range (Z.of_nat (length buffer) - 2))
  else kmers.

(** One iteration of [for token in parsed] on the state [(kmers, buffer)]. *)
Definition extract_step (st : gset string * list ascii) (tok : token)
  : gset string * list ascii :=
  match tok with
  | LITERAL c => (st.1, st.2 ++ [c])
  | _ => (flush_buffer st.1 st.2, [])
  end.

Definition literal_3mers (tokens : list token) : gset string :=
  let st := foldl extract_step (∅, []) tokens in
  flush_buffer st.1 st.2.

Definition regex_literal_3mers `{ReEngine} (regex : string) : py (gset string) :=
  parsed ← sre_parse_parse regex;
  Ok (literal_3mers (data parsed)).

(** ** The match matrix *)

(** A [scipy.sparse] matrix of [uint8]: the shape and the stored cells. *)
Record matrix : Type := {
  shape : nat * nat;
  cells : gmap (nat * nat) Z
}.

(** [lil_matrix((n, m), dtype=np.uint8)] *)
Definition lil_matrix (n m : nat) : matrix := {| shape := (n, m); cells := ∅ |}.

(** [mat[i, j] = v]: raises [IndexError] outside the shape. *)
Definition setitem (mat : matrix) (i j : nat) (v : Z) : py matrix :=
  if decide (i < (shape mat).1 ∧ j < (shape mat).2)
  then Ok {| shape := shape mat; cells := <[(i, j) := v]> (cells mat) |}
  else Raise (IndexError "index out of bounds").

(** [mat[i, j]] read back: cells never stored are zero. *)
Definition entry (mat : matrix) (i j : nat) : Z := default 0%Z (cells mat !! (i, j)).

(** [mat.tocsr()] keeps the shape and the cells. *)
Definition tocsr (mat : matrix) : matrix := mat.

(** ** The orchestrator *)

(** [set(range(len(strings)))] *)
Definition all_ids (strings : list string) : gset nat :=
  list_to_set (range (Z.of_nat (length strings))).

(** [query_3mers(index, kmers) if kmers else set(range(len(strings)))] *)
Definition candidates (index : gmap string (gset nat)) (kmers : gset string)
    (strings : list string) : py (gset nat) :=
  if decide (kmers = ∅) then Ok (all_ids strings)
  else query_3mers index (elements kmers).

(** The three statements of the loop body that come before the inner loop:
    extract, filter, compile, in the order of the source. *)
Definition prepare `{ReEngine} (index : gmap string (gset nat)) (strings : list string)
    (regex : string) : py (gset nat * Pattern) :=
  kmers ← regex_literal_3mers regex;
  candidate_indices ← candidates index kmers strings;
  pattern ← re_compile regex;
  Ok (candidate_indices, pattern).

(** [for j in candidate_indices: if pattern.fullmatch(strings[j]): mat[i, j] = 1],
    run on the matrix [mat], the candidates listed in the order [js] (the
    callers pass [elements] of the set: some order, as in Python).  The matrix is mutated in place, so the cells
    written before an exception stay written: the result is the matrix
    together with the exception that ended the loop, if any. *)
Fixpoint verify_into `{ReEngine} (pattern : Pattern) (strings : list string) (i : nat)
    (js : list nat) (mat : matrix) : matrix * option exn :=
  match js with
  | [] => (mat, None)
  | j :: js =>
      match getitem strings j with
      | Raise e => (mat, Some e)
      | Ok s =>
          if fullmatch pattern s then
            match setitem mat i j 1 with
            | Raise e => (mat, Some e)
            | Ok mat => verify_into pattern strings i js mat
            end
          else verify_into pattern strings i js mat
      end
  end.

(** The [try] block of [match_regexes] for row [i]. *)
Definition try_row `{ReEngine} (index : gmap string (gset nat)) (strings : list string)
    (i : nat) (regex : string) (mat : matrix) : matrix * option exn :=
  match prepare index strings regex with
  | Raise e => (mat, Some e)
  | Ok (candidate_indices, pattern) =>
      verify_into pattern strings i (elements candidate_indices) mat
  end.

(** [str(e)] *)
Definition exn_str (e : exn) : string :=
  match e with
  | re_error msg | TypeError msg | IndexError msg | RecursionError msg
  | NotImplementedError msg => msg
  end.

(** One iteration of [for i, regex in enumerate(regexes)], [try] and
    [except Exception] included, on the matrix and the lines printed so far. *)
Definition match_step `{ReEngine} (index : gmap string (gset nat)) (strings : list string)
    (st : matrix * list string) (ir : nat * string) : matrix * list string :=
  let '(mat, e) := try_row index strings ir.1 ir.2 st.1 in
  match e with
  | None => (mat, st.2)
  | Some e => (mat, st.2 ++ ["Regex error (" +:+ ir.2 +:+ "): " +:+ exn_str e])
  end.

(** [match_regexes] with what it printed. *)
Definition match_regexes_run `{ReEngine} (regexes strings : list string)
  : matrix * list string :=
  let index := build_3mer_index strings in
  let mat := lil_matrix (length regexes) (length strings) in
  foldl (match_step index strings) (mat, []) (enumerate regexes).

Definition match_regexes `{ReEngine} (regexes strings : list string) : py matrix :=
  Ok (tocsr (match_regexes_run regexes strings).1).

(** [[i for i in candidate_indices if pattern.fullmatch(cdr3_list[i])]] *)
Fixpoint matched_ids `{ReEngine} (pattern : Pattern) (cdr3_list : list string)
    (js : list nat) : py (list nat) :=
  match js with
  | [] => Ok []
  | i :: js =>
      s ← getitem cdr3_list i;
      rest ← matched_ids pattern cdr3_list js;
      Ok (if fullmatch pattern s then i :: rest else rest)
  end.

(** The loop of [match_regexes_against_cdr3s]: nothing is caught here. *)
Fixpoint against_loop `{ReEngine} (index : gmap string (gset nat))
    (cdr3_list : list string) (regexes : list string)
    (results : list (string * list nat)) : py (list (string * list nat)) :=
  match regexes with
  | [] => Ok results
  | regex :: regexes =>
      kmers ← regex_literal_3mers regex;
      candidate_indices ← candidates index kmers cdr3_list;
      pattern ← re_compile regex;
      matched ← matched_ids pattern cdr3_list (elements candidate_indices);
      against_loop index cdr3_list regexes (results ++ [(regex, matched)])
  end.

Definition match_regexes_against_cdr3s `{ReEngine} (regexes cdr3_list : list string)
  : py (list (string * list nat)) :=
  against_loop (build_3mer_index cdr3_list) cdr3_list regexes [].

(** The exhaustive reference of [tests/test_all.py]: every pattern against
    every string, no index. *)
Fixpoint naive_row `{ReEngine} (pattern : Pattern) (i : nat)
    (js : list (nat * string)) (mat : matrix) : matrix * option exn :=
  match js with
  | [] => (mat, None)
  | (j, sequence) :: js =>
      if fullmatch pattern sequence then
        match setitem mat i j 1 with
        | Raise e => (mat, Some e)
        | Ok mat => naive_row pattern i js mat
        end
      else naive_row pattern i js mat
  end.

Definition naive_step `{ReEngine} (sequences : list string) (mat : matrix)
    (ip : nat * string) : matrix :=
  match re_compile ip.2 with
  | Raise _ => mat
  | Ok compiled_pattern => (naive_row compiled_pattern ip.1 (enumerate sequences) mat).1
  end.

Definition naive_matrix `{ReEngine} (patterns_list sequences : list string) : matrix :=
  foldl (naive_step sequences) (lil_matrix (length patterns_list) (length sequences))
        (enumerate patterns_list).

(** ** A model of the host engine on the regular fragment

    [Sre] models [sre_parse.parse], [re.compile] and [Pattern.fullmatch] of
    CPython 3.11 for [str] patterns built from literals, [.], character
    sets, groups [( )] and [(?: )], alternation, the repetitions [*], [+],
    [?] with their lazy forms, escaped punctuation, and the global flags
    [(?i)], [(?m)], [(?s)].  Characters are those of [ascii] and case is
    folded on the letters A-Z only.  The text of an error is its [msg],
    without the position that [str] appends to it.  The model stands for
    the host engine on the patterns of the fragment, those it parses or
    rejects with [re.error]; statements about it are made for such
    patterns only.  A construct of the pattern language
    outside this fragment is answered with [NotImplementedError]; running
    out of fuel (nesting deeper than the fuel allows) is [RecursionError]. *)
Module Sre.

Definition ord (c : ascii) : nat := nat_of_ascii c.
Definition chr (n : nat) : ascii := ascii_of_nat n.

Definition mem (c : ascii) (chars : string) : bool :=
  existsb (Ascii.eqb c) (list_ascii_of_string chars).

Definition SPECIAL_CHARS : string := ".\[{()*+?^$|".
Definition ASCIILETTERS : string :=
  "abcdefghijklmnopqrstuvwxyzABCDEFGHIJKLMNOPQRSTUVWXYZ".
Definition DIGITS : string := "0123456789".

(** [FLAGS]: the letters of inline flags; only [i], [m], [s] are modelled. *)
Definition FLAGS (c : ascii) : option (option Z) :=
  if Ascii.eqb c "i" then Some (Some SRE_FLAG_IGNORECASE)
  else if Ascii.eqb c "m" then Some (Some SRE_FLAG_MULTILINE)
  else if Ascii.eqb c "s" then Some (Some SRE_FLAG_DOTALL)
  else if mem c "aLux" then Some None
  else None.

Definition unsupported {A} (what : string) : py A :=
  Raise (NotImplementedError what).

(** The tokenizer: a backslash and the character after it are one token,
    and a backslash that ends the pattern is an error. *)
Inductive src_token : Type :=
  | T_CHAR (c : ascii)
  | T_ESCAPE (c : ascii).

Definition sourceget (source : list ascii) : py (option (src_token * list ascii)) :=
  match source with
  | [] => Ok None
  | c :: rest =>
      if Ascii.eqb c "\" then
        match rest with
        | [] => Raise (re_error "bad escape (end of pattern)")
        | e :: rest => Ok (Some (T_ESCAPE e, rest))
        end
      else Ok (Some (T_CHAR c, rest))
  end.

(** [_escape] and [_class_escape] on the fragment: an escaped character
    that is neither a letter nor a digit stands for itself. *)
Definition _escape (e : ascii) : py ascii :=
  if mem e ASCIILETTERS || mem e DIGITS then unsupported "escape sequence"
  else Ok e.

Definition code_of (t : src_token) : py ascii :=
  match t with
  | T_CHAR c => Ok c
  | T_ESCAPE e => _escape e
  end.

#[global] Instance set_item_eq_dec : EqDecision set_item.
Proof. solve_decision. Defined.

(** [_uniq]: drop duplicates, keep the first occurrence of each item. *)
Definition _uniq (items : list set_item) : list set_item :=
  foldl (λ seen x, if decide (x ∈ seen) then seen else seen ++ [x]) [] items.

(** The loop that reads a character set after [[] and an optional [^]. *)
Fixpoint parse_set (fuel : nat) (source : list ascii) (set : list set_item)
  : py (list set_item * list ascii) :=
  match fuel with
  | 0 => Raise (RecursionError "maximum recursion depth exceeded")
  | S fuel =>
      this ← sourceget source;
      match this with
      | None => Raise (re_error "unterminated character set")
      | Some (this, source) =>
          match this, set with
          | T_CHAR "]"%char, _ :: _ => Ok (set, source)
          | _, _ =>
              code1 ← code_of this;
              match source with
              | "-"%char :: source =>
                  that ← sourceget source;
                  match that with
                  | None => Raise (re_error "unterminated character set")
                  | Some (T_CHAR "]"%char, source) =>
                      Ok (set ++ [SET_LITERAL code1; SET_LITERAL "-"], source)
                  | Some (that, source) =>
                      code2 ← code_of that;
                      if ord code2 <? ord code1
                      then Raise (re_error "bad character range")
                      else parse_set fuel source (set ++ [SET_RANGE code1 code2])
                  end
              | _ => parse_set fuel source (set ++ [SET_LITERAL code1])
              end
          end
      end
  end.

(** The token a finished character set is stored as: a set of one literal
    is stored as that literal. *)
Definition set_token (negate : bool) (set : list set_item) : token :=
  match _uniq set with
  | [SET_LITERAL c] => if negate then NOT_LITERAL c else LITERAL c
  | set => IN negate set
  end.

(** [_parse_flags] after the first flag letter, for global flags. *)
Fixpoint _parse_flags (source : list ascii) (add_flags : Z) : py (Z * list ascii) :=
  match source with
  | [] => Raise (re_error "missing -, : or )")
  | c :: source =>
      if Ascii.eqb c ")" then Ok (add_flags, source)
      else if mem c "-:" then unsupported "scoped flags"
      else match FLAGS c with
           | Some (Some flag) => _parse_flags source (Z.lor add_flags flag)
           | Some None => unsupported "flag"
           | None => Raise (re_error (if mem c ASCIILETTERS then "unknown flag"
                                      else "missing -, : or )"))
           end
  end.

(** Equality of two tokens as the parser's [!=] on tuples sees it: tokens
    that hold a [SubPattern] object are equal only to themselves. *)
Definition token_eqb (a b : token) : bool :=
  match a, b with
  | LITERAL c, LITERAL d | NOT_LITERAL c, NOT_LITERAL d => Ascii.eqb c d
  | ANY, ANY => true
  | IN n s, IN m t => bool_decide (n = m ∧ s = t)
  | _, _ => false
  end.

(** "check if all items share a common prefix": move it out of the branch. *)
Fixpoint common_prefix (fuel : nat) (items : list (list token))
  : list token * list (list token) :=
  match fuel, items with
  | S fuel, (prefix :: _) :: others =>
      if forallb (λ item, match item with
                          | [] => false
                          | t :: _ => token_eqb t prefix
                          end) others
      then let '(pre, items) := common_prefix fuel (map (drop 1) items) in
           (prefix :: pre, items)
      else ([], items)
  | _, _ => ([], items)
  end.

(** "check if the branch can be replaced by a character set" *)
Fixpoint branch_set (items : list (list token)) : option (list set_item) :=
  match items with
  | [] => Some []
  | [LITERAL c] :: items => (λ set, SET_LITERAL c :: set) <$> branch_set items
  | [IN false av] :: items => (λ set, av ++ set) <$> branch_set items
  | _ => None
  end.

(** What [_parse_sub] returns for the alternatives [items]. *)
Definition finish_sub (items : list (list token)) : list token :=
  match items with
  | [item] => item
  | _ =>
      let '(subpattern, items) :=
        common_prefix (S (length (List.hd [] items))) items in
      match branch_set items with
      | Some set => subpattern ++ [IN false (_uniq set)]
      | None => subpattern ++ [BRANCH items]
      end
  end.

(** The item a repetition applies to, and the token that replaces it. *)
Definition repeat_item (item : token) : list token :=
  match item with
  | SUBPATTERN false p => p
  | _ => [item]
  end.

Definition is_repeat (item : token) : bool :=
  match item with
  | MAX_REPEAT _ _ _ | MIN_REPEAT _ _ _ => true
  | _ => false
  end.

(** "unpack non-capturing groups": done once, when [_parse] returns. *)
Definition unpack (subpattern : list token) : list token :=
  flat_map (λ t, match t with
                 | SUBPATTERN false p => p
                 | _ => [t]
                 end) subpattern.

Definition repeat_bounds (this : ascii) : nat * option nat :=
  if Ascii.eqb this "?" then (0, Some 1)
  else if Ascii.eqb this "*" then (0, None)
  else (1, None).

(** [_parse_sub] reads alternatives separated by [|]; [_parse] reads one
    alternative, up to [|], [)] or the end.  Both return the tokens, the
    rest of the source and [state.flags]. *)
Fixpoint _parse_sub (fuel : nat) (source : list ascii) (flags : Z) (nested : bool)
    (items : list (list token)) {struct fuel} : py (list token * list ascii * Z) :=
  match fuel with
  | 0 => Raise (RecursionError "maximum recursion depth exceeded")
  | S fuel =>
      let first := negb nested && match items with [] => true | _ => false end in
      '(item, source, flags) ← _parse fuel source flags first [];
      match source with
      | "|"%char :: source => _parse_sub fuel source flags nested (items ++ [item])
      | _ => Ok (finish_sub (items ++ [item]), source, flags)
      end
  end
with _parse (fuel : nat) (source : list ascii) (flags : Z) (first : bool)
    (subpattern : list token) {struct fuel} : py (list token * list ascii * Z) :=
  match fuel with
  | 0 => Raise (RecursionError "maximum recursion depth exceeded")
  | S fuel =>
      let group (capture : bool) (source : list ascii) :=
        '(p, source, flags) ← _parse_sub fuel source flags true [];
        match source with
        | ")"%char :: source =>
            _parse fuel source flags first (subpattern ++ [SUBPATTERN capture p])
        | _ => Raise (re_error "missing ), unterminated subpattern")
        end in
      match source with
      | [] => Ok (unpack subpattern, source, flags)
      | next :: _ =>
          if mem next "|)" then Ok (unpack subpattern, source, flags) else
          this ← sourceget source;
          match this with
          | None => Ok (unpack subpattern, [], flags)
          | Some (T_ESCAPE e, source) =>
              code ← _escape e;
              _parse fuel source flags first (subpattern ++ [LITERAL code])
          | Some (T_CHAR this, source) =>
              if negb (mem this SPECIAL_CHARS) then
                _parse fuel source flags first (subpattern ++ [LITERAL this])
              else if Ascii.eqb this "[" then
                let '(negate, source) :=
                  match source with
                  | "^"%char :: source => (true, source)
                  | _ => (false, source)
                  end in
                '(set, source) ← parse_set (S (length source)) source [];
                _parse fuel source flags first (subpattern ++ [set_token negate set])
              else if mem this "*+?" then
                match last subpattern with
                | None => Raise (re_error "nothing to repeat")
                | Some item =>
                    if is_repeat item then Raise (re_error "multiple repeat") else
                    let '(lo, hi) := repeat_bounds this in
                    match source with
                    | "?"%char :: source =>
                        _parse fuel source flags first
                          (removelast subpattern ++ [MIN_REPEAT lo hi (repeat_item item)])
                    | "+"%char :: _ => unsupported "possessive repetition"
                    | _ =>
                        _parse fuel source flags first
                          (removelast subpattern ++ [MAX_REPEAT lo hi (repeat_item item)])
                    end
                end
              else if Ascii.eqb this "." then
                _parse fuel source flags first (subpattern ++ [ANY])
              else if Ascii.eqb this "(" then
                match source with
                | "?"%char :: source =>
                    match source with
                    | [] => Raise (re_error "unexpected end of pattern")
                    | char :: source =>
                        if Ascii.eqb char ":" then group false source
                        else if mem char "P#=!<(>-" then unsupported "group extension"
                        else match FLAGS char with
                             | Some (Some flag) =>
                                 '(add_flags, source) ← _parse_flags source flag;
                                 if negb first || negb (bool_decide (length subpattern = 0))
                                 then Raise (re_error
                                   "global flags not at the start of the expression")
                                 else _parse fuel source (Z.lor flags add_flags) first subpattern
                             | Some None => unsupported "flag"
                             | None => Raise (re_error "unknown extension")
                             end
                    end
                | _ => group true source
                end
              else unsupported "counted repetition or anchor"
          end
      end
  end.

(** [fix_flags] for a [str] pattern. *)
Definition fix_flags (flags : Z) : Z := Z.lor flags SRE_FLAG_UNICODE.

Definition parse (str : string) : py SubPattern :=
  let source := list_ascii_of_string str in
  '(p, source, flags) ← _parse_sub (2 * length source + 2) source 0 false [];
  match source with
  | [] => Ok {| state_flags := fix_flags flags; data := p |}
  | _ => Raise (re_error "unbalanced parenthesis")
  end.

(** *** Matching *)

Definition has_flag (flags flag : Z) : bool := negb (Z.land flags flag =? 0)%Z.

Definition is_upper (c : ascii) : bool := (65 <=? ord c) && (ord c <=? 90).
Definition is_lower (c : ascii) : bool := (97 <=? ord c) && (ord c <=? 122).
Definition lower (c : ascii) : ascii := if is_upper c then chr (ord c + 32) else c.
Definition upper (c : ascii) : ascii := if is_lower c then chr (ord c - 32) else c.

(** Does the literal [c] of the pattern accept the character [ch]? *)
Definition literal_test (flags : Z) (c ch : ascii) : bool :=
  if has_flag flags SRE_FLAG_IGNORECASE then Ascii.eqb (lower ch) (lower c)
  else Ascii.eqb ch c.

Definition in_range (lo hi ch : ascii) : bool :=
  (ord lo <=? ord ch) && (ord ch <=? ord hi).

Definition item_test (flags : Z) (it : set_item) (ch : ascii) : bool :=
  match it with
  | SET_LITERAL c => literal_test flags c ch
  | SET_RANGE lo hi =>
      if has_flag flags SRE_FLAG_IGNORECASE
      then in_range lo hi (lower ch) || in_range lo hi (upper ch)
      else in_range lo hi ch
  end.

(** [.] accepts everything but a newline, unless [DOTALL] is set. *)
Definition any_test (flags : Z) (ch : ascii) : bool :=
  has_flag flags SRE_FLAG_DOTALL || negb (Ascii.eqb ch (chr 10)).

(** The compiled pattern: a regular expression over character tests. *)
Inductive rx : Type :=
  | Void
  | Eps
  | Chr (test : ascii → bool)
  | Cat (a b : rx)
  | Alt (a b : rx)
  | Star (a : rx).

Fixpoint rx_power (n : nat) (r : rx) : rx :=
  match n with
  | 0 => Eps
  | S n => Cat r (rx_power n r)
  end.

Fixpoint rx_upto (n : nat) (r : rx) : rx :=
  match n with
  | 0 => Eps
  | S n => Alt Eps (Cat r (rx_upto n r))
  end.

(** Between [lo] and [hi] copies of [r]; [hi = None] is no upper bound. *)
Definition rx_repeat (lo : nat) (hi : option nat) (r : rx) : rx :=
  match hi with
  | None => Cat (rx_power lo r) (Star r)
  | Some hi => if hi <? lo then Void else Cat (rx_power lo r) (rx_upto (hi - lo) r)
  end.

Fixpoint compile_token (flags : Z) (t : token) : rx :=
  let compile_seq :=
    fix seq (p : list token) : rx :=
      match p with
      | [] => Eps
      | t :: p => Cat (compile_token flags t) (seq p)
      end in
  let compile_alts :=
    fix alts (items : list (list token)) : rx :=
      match items with
      | [] => Void
      | item :: items => Alt (compile_seq item) (alts items)
      end in
  match t with
  | LITERAL c => Chr (literal_test flags c)
  | NOT_LITERAL c => Chr (λ ch, negb (literal_test flags c ch))
  | ANY => Chr (any_test flags)
  | IN negate items =>
      Chr (λ ch, xorb negate (existsb (λ it, item_test flags it ch) items))
  | BRANCH items => compile_alts items
  | MAX_REPEAT lo hi item | MIN_REPEAT lo hi item => rx_repeat lo hi (compile_seq item)
  | SUBPATTERN _ p => compile_seq p
  end.

Definition compile_seq (flags : Z) (p : list token) : rx :=
  foldr (λ t r, Cat (compile_token flags t) r) Eps p.

Fixpoint nullable (r : rx) : bool :=
  match r with
  | Void | Chr _ => false
  | Eps | Star _ => true
  | Cat a b => nullable a && nullable b
  | Alt a b => nullable a || nullable b
  end.

(** The Brzozowski derivative of [r] by the character [ch]. *)
Fixpoint deriv (ch : ascii) (r : rx) : rx :=
  match r with
  | Void | Eps => Void
  | Chr test => if test ch then Eps else Void
  | Cat a b =>
      if nullable a then Alt (Cat (deriv ch a) b) (deriv ch b)
      else Cat (deriv ch a) b
  | Alt a b => Alt (deriv ch a) (deriv ch b)
  | Star a => Cat (deriv ch a) (Star a)
  end.

(** Does [r] accept the whole of [s]? *)
Definition rx_fullmatch (r : rx) (s : list ascii) : bool :=
  nullable (foldl (λ r ch, deriv ch r) r s).

(** [re.compile]: parse, then generate the code. *)
Definition compile (pattern : string) : py rx :=
  p ← parse pattern;
  Ok (compile_seq (state_flags p) (data p)).

Definition engine : ReEngine := {|
  Pattern := rx;
  sre_parse_parse := parse;
  re_compile := compile;
  fullmatch := λ pattern s, rx_fullmatch pattern (list_ascii_of_string s)
|}.

End Sre.

(** ** The sequence generators

    [src/cdr3fire/generators.py].  The module [random] is modelled by its
    state: an arbitrary sequence of draws and the position reached in it.
    A call that needs a number below [n] takes the next draw modulo [n],
    so every outcome the real generator can produce is the outcome of
    some sequence, and a statement for all sequences covers them all. *)
Module Generators.

Inductive rand_exn : Type :=
  | ValueError (msg : string)
  | IndexError (msg : string).

Record Random : Type := {
  draws : nat → nat;
  position : nat
}.

(** A computation that uses [random]: it raises, or returns a value and
    the state it leaves. *)
Definition rnd (A : Type) : Type := Random → rand_exn + A * Random.

Definition ret {A} (a : A) : rnd A := λ g, inr (a, g).

Definition bind {A B} (m : rnd A) (k : A → rnd B) : rnd B :=
  λ g, match m g with
       | inl e => inl e
       | inr (a, g) => k a g
       end.

Definition raise {A} (e : rand_exn) : rnd A := λ _, inl e.

Notation "x <~ m ;; k" := (bind m (λ x, k))
  (at level 100, m at next level, right associativity).

(** [_randbelow(n)] for [n > 0], and the index [floor(random() * n)]. *)
Definition _randbelow (n : nat) : rnd nat :=
  λ g, inr (draws g (position g) mod n,
            {| draws := draws g; position := S (position g) |}).

(** [random.randint(a, b)]: an integer of [[a, b]]; an empty range raises. *)
Definition randint (a b : Z) : rnd Z :=
  if (b <? a)%Z then raise (ValueError "empty range for randrange()")
  else k <~ _randbelow (Z.to_nat (b - a + 1)) ;; ret (a + Z.of_nat k)%Z.

(** [random.choice(seq)] *)
Definition choice {A} (seq : list A) : rnd A :=
  match seq with
  | [] => raise (IndexError "Cannot choose from an empty sequence")
  | x :: _ => k <~ _randbelow (length seq) ;; ret (default x (seq !! k))
  end.

(** [random.choices(population, k=k)]: [k] times
    [population[floor(random() * n)]]. *)
Fixpoint choices_loop {A} (population : list A) (k : nat) : rnd (list A) :=
  match k with
  | 0 => ret []
  | S k =>
      i <~ _randbelow (length population) ;;
      match population !! i with
      | None => raise (IndexError "list index out of range")
      | Some x => rest <~ choices_loop population k ;; ret (x :: rest)
      end
  end.

Definition choices {A} (population : list A) (k : Z) : rnd (list A) :=
  choices_loop population (Z.to_nat k).

(** The dictionaries, as their [items()] in insertion order. *)
Definition TRBV_MOTIFS : list (string * string) :=
  [("TRBV5-1", "CASS"); ("TRBV7-2", "CASR"); ("TRBV20-1", "CASS")].

Definition TRBD_SEGMENTS : list (string * string) :=
  [("TRBD1", "GGGGG"); ("TRBD2", "NAGGG")].

Definition TRBJ_SUFFIXES : list (string * string) :=
  [("TRBJ1-1", "YEQYF"); ("TRBJ2-3", "FGTQYF"); ("TRBJ2-7", "EQYF")].

Definition AMINO_ACIDS : list ascii := list_ascii_of_string "ACDEFGHIKLMNPQRSTVWY".

(** [seq[:stop]]: a negative [stop] counts from the end. *)
Definition slice_to (seq : string) (stop : Z) : string :=
  let stop := if (stop <? 0)%Z then (len seq + stop)%Z else stop in
  string_of_list_ascii (take (Z.to_nat stop) (list_ascii_of_string seq)).

(** [seq[start:]] for [start >= 0]. *)
Definition slice_from (seq : string) (start : Z) : string :=
  string_of_list_ascii (drop (Z.to_nat start) (list_ascii_of_string seq)).

Definition random_deletion (seq : string) (max_del : Z) : rnd string :=
  n <~ randint 0 (Z.min max_del (len seq)) ;;
  ret (if (0 <? n)%Z then slice_to seq (- n) else seq).

Definition random_insertion (max_len : Z) : rnd string :=
  n <~ randint 0 max_len ;;
  chars <~ choices AMINO_ACIDS n ;;
  ret (string_of_list_ascii chars).

Definition generate_cdr3b_realistic : rnd (string * gmap string string) :=
  v <~ choice TRBV_MOTIFS ;;
  d <~ choice TRBD_SEGMENTS ;;
  j <~ choice TRBJ_SUFFIXES ;;
  v_trimmed <~ random_deletion v.2 2 ;;
  d_once <~ random_deletion d.2 2 ;;
  d_trimmed <~ random_deletion d_once 2 ;;
  start <~ randint 0 2 ;;
  let j_trimmed := slice_from j.2 start in
  n1 <~ random_insertion 3 ;;
  n2 <~ random_insertion 3 ;;
  let cdr3b := v_trimmed +:+ n1 +:+ d_trimmed +:+ n2 +:+ j_trimmed in
  ret (cdr3b, {[ "V" := v.1; "D" := d.1; "J" := j.1 ]}).

(** The list comprehension of [generate_random_strings]. *)
Fixpoint random_strings_loop (alphabet : list ascii) (n : nat) (length : Z)
  : rnd (list string) :=
  match n with
  | 0 => ret []
  | S n =>
      chars <~ choices alphabet length ;;
      rest <~ random_strings_loop alphabet n length ;;
      ret (string_of_list_ascii chars :: rest)
  end.

Definition generate_random_strings (n length : Z) : rnd (list string) :=
  let alphabet := list_ascii_of_string "ACDEFGHIKLMNPQRSTVWY" in
  random_strings_loop alphabet (Z.to_nat n) length.

(** Every character of [s] is one of the twenty amino-acid letters. *)
Definition amino (s : string) : Prop :=
  Forall (λ c, c ∈ AMINO_ACIDS) (list_ascii_of_string s).

End Generators.

(** A state of [random] to run the generators on. *)
Definition sample_random : Generators.Random :=
  {| Generators.draws := λ i, 7 * i + 3; Generators.position := 0 |}.

(** ** Predicates of the statements *)

(** The cell [(i, j)] is stored with the value 1. *)
Definition stored (mat : matrix) (i j : nat) : Prop := cells mat !! (i, j) = Some 1%Z.

(** Every stored cell holds the value 1. *)
Definition all_ones (mat : matrix) : Prop := ∀ c v, cells mat !! c = Some v → v = 1%Z.

(** Column [j] is a candidate of [regex] whose string the pattern accepts:
    the condition under which the loop body writes the cell. *)
Definition hit `{ReEngine} (strings : list string) (regex : string) (j : nat) : Prop :=
  ∃ ids pattern s,
    prepare (build_3mer_index strings) strings regex = Ok (ids, pattern) ∧
    j ∈ ids ∧ strings !! j = Some s ∧ fullmatch pattern s = true.

(** [km] is spelled by three neighbouring [LITERAL] tokens of [tokens]. *)
Definition window (tokens : list token) (km : string) : Prop :=
  ∃ pre a b c post,
    tokens = pre ++ [LITERAL a; LITERAL b; LITERAL c] ++ post ∧
    km = string_of_list_ascii [a; b; c].

(** Every k-mer of [kmers] occurs in every string that [pattern] accepts. *)
Definition necessary `{ReEngine} (kmers : gset string) (pattern : Pattern) : Prop :=
  ∀ s km, fullmatch pattern s = true → km ∈ kmers → substring_of km s.

(** The line the [except] branch of [match_regexes] prints for [regex], if
    its [try] block raises. *)
Definition diagnostic `{ReEngine} (strings : list string) (regex : string)
  : option string :=
  match prepare (build_3mer_index strings) strings regex with
  | Raise e => Some ("Regex error (" +:+ regex +:+ "): " +:+ exn_str e)
  | Ok _ => None
  end.

(** [token[0] == sre_parse.LITERAL] *)
Definition is_literal (t : token) : bool :=
  match t with
  | LITERAL _ => true
  | _ => false
  end.

(** The language of a compiled pattern. *)
Inductive lang : Sre.rx → list ascii → Prop :=
  | lang_Eps : lang Sre.Eps []
  | lang_Chr test ch : test ch = true → lang (Sre.Chr test) [ch]
  | lang_Cat a b s t : lang a s → lang b t → lang (Sre.Cat a b) (s ++ t)
  | lang_Alt_l a b s : lang a s → lang (Sre.Alt a b) s
  | lang_Alt_r a b s : lang b s → lang (Sre.Alt a b) s
  | lang_Star_nil a : lang (Sre.Star a) []
  | lang_Star_app a s t : lang a s → lang (Sre.Star a) t → lang (Sre.Star a) (s ++ t).

(** * Properties *)

(** ** Strings and slices *)

Lemma string_of_list_ascii_app (a b : list ascii) :
  string_of_list_ascii (a ++ b) = string_of_list_ascii a +:+ string_of_list_ascii b.
Proof. induction a as [|c a IH]; simpl; [done | by rewrite IH]. Qed.

Lemma string_length_of_list (l : list ascii) :
  String.length (string_of_list_ascii l) = length l.
Proof. induction l as [|c l IH]; simpl; [done | by rewrite IH]. Qed.

Lemma length_list_of_string (s : string) :
  length (list_ascii_of_string s) = String.length s.
Proof. induction s as [|c s IH]; simpl; [done | by rewrite IH]. Qed.

(** A full slice of a string is one of its substrings, of the length asked. *)
Lemma slice_substring (s : string) (lo hi : nat) :
  lo ≤ hi → hi ≤ String.length s →
  substring_of (slice s lo hi) s ∧ String.length (slice s lo hi) = hi - lo.
Proof.
  intros Hlo Hhi. unfold slice, substring_of.
  rewrite <- length_list_of_string in Hhi.
  set (l := list_ascii_of_string s) in *.
  split.
  - exists (string_of_list_ascii (take lo l)),
           (string_of_list_ascii (drop (hi - lo) (drop lo l))).
    rewrite <- !string_of_list_ascii_app, !take_drop.
    subst l. by rewrite string_of_list_ascii_of_string.
  - rewrite string_length_of_list, length_take, length_drop. lia.
Qed.

Lemma elem_of_range (n : Z) (j : nat) : j ∈ range n ↔ (Z.of_nat j < n)%Z.
Proof. unfold range. rewrite elem_of_seq. lia. Qed.

Lemma elem_of_enumerate {A} (l : list A) (i : nat) (x : A) :
  (i, x) ∈ enumerate l ↔ l !! i = Some x.
Proof.
  unfold enumerate. rewrite elem_of_lookup_zip_with. split.
  - intros (k & i' & x' & [= -> ->] & Hi & Hx).
    apply lookup_seq in Hi as [-> _]. done.
  - intros Hx. exists i, i, x. split_and!; [done | | done].
    apply lookup_seq. split; [done |]. by eapply lookup_lt_Some.
Qed.

(** ** The index *)

Lemma posting_Some (index : gmap string (gset nat)) (km : string) (i : nat) :
  i ∈ posting index km ↔ ∃ ids, index !! km = Some ids ∧ i ∈ ids.
Proof.
  unfold posting. destruct (index !! km) as [ids|]; simpl.
  - naive_solver.
  - split; [set_solver | naive_solver].
Qed.

Lemma posting_index_add (index : gmap string (gset nat)) (km km' : string) (i i' : nat) :
  i' ∈ posting (index_add index km i) km' ↔
  i' ∈ posting index km' ∨ (km' = km ∧ i' = i).
Proof.
  unfold index_add. destruct (decide (km' = km)) as [->|Hne].
  - unfold posting at 1. rewrite lookup_insert_eq. simpl. set_solver.
  - unfold posting at 1. rewrite lookup_insert_ne by done.
    fold (posting index km'). naive_solver.
Qed.

Lemma posting_index_loop (s : string) (i : nat) (js : list nat)
    (index : gmap string (gset nat)) (km : string) (i' : nat) :
  i' ∈ posting (foldl (λ index j, index_add index (slice s j (j + 3)) i) index js) km ↔
  i' ∈ posting index km ∨ (i' = i ∧ ∃ j, j ∈ js ∧ slice s j (j + 3) = km).
Proof.
  revert index. induction js as [|j js IH]; intros index; simpl.
  - set_solver.
  - rewrite IH, posting_index_add. set_solver.
Qed.

Lemma posting_index_string (index : gmap string (gset nat)) (i : nat) (s km : string)
    (i' : nat) :
  i' ∈ posting (index_string index i s) km ↔
  i' ∈ posting index km ∨
  (i' = i ∧ ∃ j, j + 3 ≤ String.length s ∧ slice s j (j + 3) = km).
Proof.
  unfold index_string. rewrite posting_index_loop.
  setoid_rewrite elem_of_range. unfold len.
  split; (intros [?|[-> (j & Hj & <-)]]; [by left | right; split; [done |]]);
    exists j; split; (lia || done).
Qed.

Lemma posting_build_loop (l : list (nat * string)) (index : gmap string (gset nat))
    (km : string) (i : nat) :
  i ∈ posting (foldl (λ index '(i, s), index_string index i s) index l) km ↔
  i ∈ posting index km ∨
  ∃ s j, (i, s) ∈ l ∧ j + 3 ≤ String.length s ∧ slice s j (j + 3) = km.
Proof.
  revert index. induction l as [|[i0 s0] l IH]; intros index; simpl.
  - set_solver.
  - rewrite IH, posting_index_string. split.
    + intros [[?|[-> (j & ? & ?)]]|(s & j & ? & ?)]; [by left | |].
      * right. exists s0, j. set_solver.
      * right. exists s, j. set_solver.
    + intros [?|(s & j & [[= -> ->]|?]%elem_of_cons & ? & ?)].
      * by left; left.
      * left; right. eauto.
      * right. eauto.
Qed.

(** The posting sets of the built index, exactly. *)
Lemma posting_build (strings : list string) (km : string) (i : nat) :
  i ∈ posting (build_3mer_index strings) km ↔
  ∃ s j, strings !! i = Some s ∧ j + 3 ≤ String.length s ∧ slice s j (j + 3) = km.
Proof.
  unfold build_3mer_index. rewrite posting_build_loop.
  setoid_rewrite elem_of_enumerate. unfold posting. rewrite lookup_empty. simpl.
  set_solver.
Qed.

(** A string shorter than three characters leaves the index as it is. *)
Lemma index_string_short (index : gmap string (gset nat)) (i : nat) (s : string) :
  String.length s < 3 → index_string index i s = index.
Proof.
  intros Hs. unfold index_string, range, len.
  replace (Z.to_nat (Z.of_nat (String.length s) - 2)) with 0 by lia. done.
Qed.

(** C5: in the index built from a corpus, every 3-character window of the
    string at position [i] (offsets [0] to [L-3] of a string of length
    [L ≥ 3]) is a key whose posting set contains [i]; a string shorter than
    3 adds nothing when it is indexed and its id is in no posting set. *)
Theorem build_3mer_index_windows (strings : list string) (i : nat) (s : string) :
  strings !! i = Some s →
  (∀ j, 3 ≤ String.length s → j ≤ String.length s - 3 →
     ∃ ids, build_3mer_index strings !! slice s j (j + 3) = Some ids ∧ i ∈ ids) ∧
  (String.length s < 3 →
     (∀ index, index_string index i s = index) ∧
     (∀ km ids, build_3mer_index strings !! km = Some ids → i ∉ ids)).
Proof.
  intros Hs. split.
  - intros j HL Hj. apply posting_Some, posting_build.
    exists s, j. split_and!; [done | lia | done].
  - intros Hshort. split.
    + intros index. by apply index_string_short.
    + intros km ids Hkm Hi.
      assert (i ∈ posting (build_3mer_index strings) km) as Hp
        by (apply posting_Some; eauto).
      apply posting_build in Hp as (s' & j & Hs' & Hj & _).
      rewrite Hs in Hs'. injection Hs' as <-. lia.
Qed.

(** An id in a posting set of the built index is a position of the corpus
    and the key is a window of the string there. *)
Lemma posting_genuine (strings : list string) (km : string) (i : nat) :
  i ∈ posting (build_3mer_index strings) km →
  i < length strings ∧
  ∃ s, strings !! i = Some s ∧ String.length km = 3 ∧ substring_of km s.
Proof.
  intros (s & j & Hs & Hj & <-)%posting_build. split.
  - by eapply lookup_lt_Some.
  - exists s. destruct (slice_substring s j (j + 3)) as [Hsub Hlen]; [lia.. |].
    split_and!; [done | lia | done].
Qed.

(** ** The query *)

Lemma elem_of_foldl_intersection (sets : list (gset nat)) (acc : gset nat) (i : nat) :
  i ∈ foldl (∩) acc sets ↔ i ∈ acc ∧ ∀ ids, ids ∈ sets → i ∈ ids.
Proof.
  revert acc. induction sets as [|x sets IH]; intros acc; simpl.
  - set_solver.
  - rewrite IH. set_solver.
Qed.

(** On a non-empty list the query succeeds and its result is the
    intersection of the posting sets. *)
Lemma query_3mers_cons (index : gmap string (gset nat)) (km : string)
    (kmers : list string) :
  ∃ ids, query_3mers index (km :: kmers) = Ok ids ∧
         ∀ i, i ∈ ids ↔ ∀ km', km' ∈ km :: kmers → i ∈ posting index km'.
Proof.
  unfold query_3mers. simpl. eexists. split; [done |].
  intros i. rewrite elem_of_foldl_intersection. split.
  - intros [Hkm Hrest] km' [->|Hin]%elem_of_cons; [done |].
    apply Hrest, list_elem_of_fmap. eauto.
  - intros Hall. split; [apply Hall; left |].
    intros ids (km' & -> & Hin)%list_elem_of_fmap. apply Hall. by right.
Qed.

(** The ids a query of the built index returns are positions of the corpus. *)
Lemma query_3mers_in_bounds (strings kmers : list string) (ids : gset nat) (i : nat) :
  query_3mers (build_3mer_index strings) kmers = Ok ids → i ∈ ids →
  i < length strings.
Proof.
  destruct kmers as [|km kmers].
  - intros [= <-]. set_solver.
  - destruct (query_3mers_cons (build_3mer_index strings) km kmers) as (ids' & -> & Hids).
    intros [= <-] Hi. eapply (posting_genuine strings km).
    apply (proj1 (Hids i) Hi), elem_of_cons. by left.
Qed.

(** C10: the built index holds only genuine entries.  An id in the posting
    set of a key is a position of the corpus and the key is a contiguous
    substring of length 3 of the string there; hence every id returned by
    a query of that index is a position of the corpus. *)
Theorem build_3mer_index_genuine (strings : list string) :
  (∀ km ids i, build_3mer_index strings !! km = Some ids → i ∈ ids →
     i < length strings ∧
     ∃ s, strings !! i = Some s ∧ String.length km = 3 ∧ substring_of km s) ∧
  (∀ kmers ids i, query_3mers (build_3mer_index strings) kmers = Ok ids → i ∈ ids →
     i < length strings).
Proof.
  split.
  - intros km ids i Hkm Hi. apply posting_genuine, posting_Some. eauto.
  - intros kmers ids i. apply query_3mers_in_bounds.
Qed.

(** C6: for a non-empty list of k-mers the query raises nothing and returns
    exactly the intersection of the posting sets of the listed k-mers, a
    k-mer that is not a key counting as the empty set; so one absent k-mer
    makes the result empty. *)
Theorem query_3mers_intersection (index : gmap string (gset nat)) (kmers : list string) :
  kmers ≠ [] →
  ∃ ids, query_3mers index kmers = Ok ids ∧
    (∀ i, i ∈ ids ↔ ∀ km, km ∈ kmers → i ∈ default ∅ (index !! km)) ∧
    ((∃ km, km ∈ kmers ∧ index !! km = None) → ids = ∅).
Proof.
  intros Hne. destruct kmers as [|km kmers]; [done |].
  destruct (query_3mers_cons index km kmers) as (ids & Hq & Hids).
  exists ids. split_and!; [done | done |].
  intros (km' & Hin & Habsent). apply set_eq. intros i. split; [|set_solver].
  intros Hi. pose proof (proj1 (Hids i) Hi km' Hin) as Hp.
  unfold posting in Hp. rewrite Habsent in Hp. done.
Qed.

(** C9, as the code has it: queried with no k-mer at all, the guard on the
    empty list answers with the empty set and nothing is raised. *)
Theorem query_3mers_nil (index : gmap string (gset nat)) :
  query_3mers index [] = Ok ∅.
Proof. reflexivity. Qed.

(** ** The orchestrator *)

Lemma entry_stored (mat : matrix) (i j : nat) :
  all_ones mat → (entry mat i j = 1%Z ↔ stored mat i j).
Proof.
  intros Hones. unfold entry, stored. destruct (cells mat !! (i, j)) as [v|] eqn:E; simpl.
  - rewrite (Hones _ _ E). naive_solver.
  - naive_solver.
Qed.

Lemma entry_zero_or_one (mat : matrix) (i j : nat) :
  all_ones mat → entry mat i j = 0%Z ∨ entry mat i j = 1%Z.
Proof.
  intros Hones. unfold entry. destruct (cells mat !! (i, j)) as [v|] eqn:E; simpl.
  - right. by eapply Hones.
  - by left.
Qed.

Lemma elem_of_all_ids (strings : list string) (j : nat) :
  j ∈ all_ids strings ↔ j < length strings.
Proof. unfold all_ids. rewrite elem_of_list_to_set, elem_of_range. lia. Qed.

Lemma elements_nonempty (kmers : gset string) : kmers ≠ ∅ → elements kmers ≠ [].
Proof. intros Hne Hnil. by apply elements_empty_inv, leibniz_equiv in Hnil. Qed.

(** Choosing the candidates never raises: the query is only made with at
    least one k-mer. *)
Lemma candidates_Ok (index : gmap string (gset nat)) (kmers : gset string)
    (strings : list string) :
  ∃ ids, candidates index kmers strings = Ok ids.
Proof.
  unfold candidates. case_decide as Hk; [eauto |].
  apply elements_nonempty in Hk.
  destruct (elements kmers) as [|km kms]; [done |].
  destruct (query_3mers_cons index km kms) as (ids & -> & _). eauto.
Qed.

(** Candidates drawn from the index of the corpus are positions of it. *)
Lemma candidates_in_bounds (kmers : gset string) (strings : list string)
    (ids : gset nat) (j : nat) :
  candidates (build_3mer_index strings) kmers strings = Ok ids →
  j ∈ ids → j < length strings.
Proof.
  unfold candidates. case_decide.
  - intros [= <-]. apply elem_of_all_ids.
  - intros Hq Hj. by eapply query_3mers_in_bounds.
Qed.

Section orchestrator.
Context `{ReEngine}.
Implicit Types (strings regexes : list string) (mat : matrix).

Lemma setitem_Ok mat (i j : nat) (v : Z) :
  i < (shape mat).1 → j < (shape mat).2 →
  setitem mat i j v = Ok {| shape := shape mat; cells := <[(i, j) := v]> (cells mat) |}.
Proof. intros Hi Hj. unfold setitem. by rewrite decide_True. Qed.

(** The inner loop over in-bounds candidates ends without an exception and
    stores exactly the accepted candidates of row [i]. *)
Lemma verify_into_spec (pattern : Pattern) strings (i : nat) (js : list nat) mat :
  i < (shape mat).1 → (shape mat).2 = length strings →
  (∀ j, j ∈ js → j < length strings) →
  ∃ mat', verify_into pattern strings i js mat = (mat', None) ∧
    shape mat' = shape mat ∧
    (all_ones mat → all_ones mat') ∧
    ∀ i' j', stored mat' i' j' ↔
      stored mat i' j' ∨
      (i' = i ∧ j' ∈ js ∧ ∃ s, strings !! j' = Some s ∧ fullmatch pattern s = true).
Proof.
  intros Hi Hcols. revert mat Hi Hcols.
  induction js as [|j js IH]; intros mat Hi Hcols Hjs; simpl.
  - exists mat. split_and!; [done | done | done |]. set_solver.
  - assert (j < length strings) as Hj by (apply Hjs, elem_of_cons; by left).
    destruct (lookup_lt_is_Some_2 strings j Hj) as [s Hs].
    unfold getitem. rewrite Hs.
    assert (∀ j', j' ∈ js → j' < length strings) as Hjs'
      by (intros; apply Hjs, elem_of_cons; by right).
    destruct (fullmatch pattern s) eqn:Hm.
    + rewrite setitem_Ok by (done || lia).
      edestruct (IH {| shape := shape mat; cells := <[(i, j) := 1%Z]> (cells mat) |})
        as (mat' & -> & Hshape & Hones & Hst); [done.. |].
      exists mat'. split_and!; [done | done | |].
      * intros Hm1. apply Hones. intros c v. simpl.
        destruct (decide (c = (i, j))) as [->|Hne].
        -- rewrite lookup_insert_eq. congruence.
        -- rewrite lookup_insert_ne by done. apply Hm1.
      * intros i' j'. rewrite Hst. unfold stored at 1. simpl.
        destruct (decide ((i, j) = (i', j'))) as [[= <- <-]|Hne].
        -- rewrite lookup_insert_eq. split; [|tauto].
           intros _. right. split_and!; [done | apply elem_of_cons; by left | eauto].
        -- rewrite lookup_insert_ne by done. fold (stored mat i' j').
           split; [set_solver |].
           intros [?|(-> & [->|?]%elem_of_cons & ?)]; [by left | done | by right].
    + destruct (IH mat) as (mat' & -> & Hshape & Hones & Hst); [done.. |].
      exists mat'. split_and!; [done.. |].
      intros i' j'. rewrite Hst. split; [set_solver |].
      intros [?|(-> & [->|?]%elem_of_cons & (s' & Hs' & Hm'))];
        [by left | congruence | right; eauto].
Qed.

(** The [try] block for row [i]: whatever happens, the shape is kept and
    the cells added are the hits of [regex] in row [i]; the block raises
    exactly when the preparation of the pattern does. *)
Lemma try_row_spec strings (i : nat) (regex : string) mat :
  i < (shape mat).1 → (shape mat).2 = length strings →
  ∃ mat' e, try_row (build_3mer_index strings) strings i regex mat = (mat', e) ∧
    shape mat' = shape mat ∧
    (all_ones mat → all_ones mat') ∧
    (∀ i' j', stored mat' i' j' ↔ stored mat i' j' ∨ (i' = i ∧ hit strings regex j')) ∧
    (is_Some e ↔ raises (prepare (build_3mer_index strings) strings regex)).
Proof.
  intros Hi Hcols. unfold try_row, hit.
  destruct (prepare (build_3mer_index strings) strings regex) as [[ids pattern]|e] eqn:Hp.
  - destruct (verify_into_spec pattern strings i (elements ids) mat)
      as (mat' & Hv & Hshape & Hones & Hst); [done | done | |].
    { intros j Hj%elem_of_elements. unfold prepare in Hp.
      destruct (regex_literal_3mers regex) as [kmers|]; [simpl in Hp | done].
      destruct (candidates _ kmers strings) as [ids'|] eqn:Hc; [simpl in Hp | done].
      destruct (re_compile regex); [simpl in Hp | done].
      injection Hp as -> _. by eapply candidates_in_bounds. }
    exists mat', None. split_and!; [done | done | done | |].
    + intros i' j'. rewrite Hst. setoid_rewrite elem_of_elements. split.
      * intros [?|(-> & ? & s & ? & ?)]; [by left |]. right. split; [done |].
        exists ids, pattern, s. done.
      * intros [?|(-> & ids' & pattern' & s & [= <- <-] & ? & ? & ?)]; [by left |].
        right. eauto.
    + split; [by intros [? [=]] | by intros [? [=]]].
  - exists mat, (Some e). split_and!; [done | done | done | |].
    + intros i' j'. split; [by left |].
      intros [?|(_ & ? & ? & ? & [=] & _)]. done.
    + split; [intros _; by exists e | eauto].
Qed.

Lemma match_loop_spec strings (l : list (nat * string)) (st : matrix * list string) :
  (shape st.1).2 = length strings →
  (∀ i regex, (i, regex) ∈ l → i < (shape st.1).1) →
  let st' := foldl (match_step (build_3mer_index strings) strings) st l in
  shape st'.1 = shape st.1 ∧
  (all_ones st.1 → all_ones st'.1) ∧
  ∀ i j, stored st'.1 i j ↔
    stored st.1 i j ∨ ∃ regex, (i, regex) ∈ l ∧ hit strings regex j.
Proof.
  revert st. induction l as [|[i0 regex0] l IH]; intros st Hcols Hrows; simpl.
  - split_and!; [done | done |]. set_solver.
  - destruct (try_row_spec strings i0 regex0 st.1)
      as (mat' & e & Ht & Hshape & Hones & Hst & _);
      [by eapply Hrows, elem_of_cons; left | done |].
    set (st1 := match_step (build_3mer_index strings) strings st (i0, regex0)).
    assert (st1.1 = mat') as Hst1.
    { subst st1. unfold match_step. simpl. rewrite Ht. by destruct e. }
    destruct (IH st1) as (Hshape' & Hones' & Hst').
    { rewrite Hst1. congruence. }
    { intros i regex Hin. rewrite Hst1, Hshape. eapply Hrows, elem_of_cons. by right. }
    rewrite Hst1 in *. split_and!.
    + congruence.
    + auto.
    + intros i j. rewrite Hst', Hst. split.
      * intros [[?|[-> ?]]|(regex & ? & ?)]; [by left | |].
        -- right. exists regex0. split; [apply elem_of_cons; by left | done].
        -- right. exists regex. split; [apply elem_of_cons; by right | done].
      * intros [?|(regex & [[= -> ->]|?]%elem_of_cons & ?)].
        -- by left; left.
        -- by left; right.
        -- right. eauto.
Qed.

(** The matrix of [match_regexes], cell by cell. *)
Lemma match_regexes_cells regexes strings :
  let mat := tocsr (match_regexes_run regexes strings).1 in
  shape mat = (length regexes, length strings) ∧
  all_ones mat ∧
  ∀ i j, entry mat i j = 1%Z ↔
    ∃ regex, regexes !! i = Some regex ∧ hit strings regex j.
Proof.
  unfold match_regexes_run, tocsr.
  destruct (match_loop_spec strings (enumerate regexes)
              (lil_matrix (length regexes) (length strings), []))
    as (Hshape & Hones & Hst).
  { done. }
  { intros i regex Hin%elem_of_enumerate. simpl. by eapply lookup_lt_Some. }
  simpl in *.
  assert (all_ones (lil_matrix (length regexes) (length strings))) as H0.
  { intros c v. unfold lil_matrix. simpl. by rewrite lookup_empty. }
  split_and!; [done | auto |].
  intros i j. rewrite entry_stored by auto. rewrite Hst.
  setoid_rewrite elem_of_enumerate.
  unfold stored, lil_matrix. simpl. rewrite lookup_empty. naive_solver.
Qed.

End orchestrator.

Section claims.
Context `{ReEngine}.
Implicit Types (strings regexes : list string) (mat : matrix).

Lemma prepare_raises strings (regex : string) :
  raises (prepare (build_3mer_index strings) strings regex) ↔
  raises (regex_literal_3mers regex) ∨ raises (re_compile regex).
Proof.
  unfold prepare.
  destruct (regex_literal_3mers regex) as [kmers|e]; simpl.
  - destruct (candidates_Ok (build_3mer_index strings) kmers strings) as [ids ->]. simpl.
    destruct (re_compile regex) as [pattern|e]; simpl.
    + split; [by intros [? [=]] | by intros [[? [=]]|[? [=]]]].
    + split; [right | intros _]; by exists e.
  - split; [left | intros _]; by exists e.
Qed.

(** C7: when the extractor finds no k-mer for a pattern that compiles, the
    candidate set is the whole range [{0, …, M−1}], and the row of the
    pattern holds a 1 exactly at the strings the pattern full-matches. *)
Theorem match_regexes_fallback regexes strings (i : nat) (regex : string)
    (pattern : Pattern) :
  regexes !! i = Some regex →
  regex_literal_3mers regex = Ok ∅ →
  re_compile regex = Ok pattern →
  candidates (build_3mer_index strings) ∅ strings = Ok (all_ids strings) ∧
  (∀ j, j ∈ all_ids strings ↔ j < length strings) ∧
  ∃ mat, match_regexes regexes strings = Ok mat ∧
    ∀ j s, strings !! j = Some s →
      (entry mat i j = 1%Z ↔ fullmatch pattern s = true).
Proof.
  intros Hi Hk Hc.
  assert (prepare (build_3mer_index strings) strings regex = Ok (all_ids strings, pattern))
    as Hp.
  { unfold prepare. rewrite Hk. simpl. unfold candidates.
    rewrite decide_True by done. simpl. by rewrite Hc. }
  split_and!.
  - unfold candidates. by rewrite decide_True.
  - apply elem_of_all_ids.
  - destruct (match_regexes_cells regexes strings) as (Hshape & Hones & Hcells).
    eexists. split; [done |].
    intros j s Hs. rewrite Hcells. split.
    + intros (regex' & Hi' & ids & pattern' & s' & Hp' & _ & Hs' & Hm).
      congruence.
    + intros Hm. exists regex. split; [done |].
      exists (all_ids strings), pattern, s. split_and!; [done | | done | done].
      apply elem_of_all_ids. by eapply lookup_lt_Some.
Qed.

(** C8: when the pattern is not a well-formed regex, that is when the
    parser raises [re.error], the extractor raises that error and returns
    no k-mer set. *)
Theorem regex_literal_3mers_error (regex msg : string) :
  sre_parse_parse regex = Raise (re_error msg) →
  regex_literal_3mers regex = Raise (re_error msg).
Proof. intros Hp. unfold regex_literal_3mers. by rewrite Hp. Qed.

(** *** The id lists of [match_regexes_against_cdr3s] *)

Lemma matched_ids_spec (pattern : Pattern) strings (js : list nat) :
  (∀ j, j ∈ js → j < length strings) →
  ∃ matched, matched_ids pattern strings js = Ok matched ∧
    ∀ j, j ∈ matched ↔
      j ∈ js ∧ ∃ s, strings !! j = Some s ∧ fullmatch pattern s = true.
Proof.
  induction js as [|j js IH]; intros Hjs; simpl.
  - exists []. split; [done |]. set_solver.
  - assert (j < length strings) as Hj by (apply Hjs, elem_of_cons; by left).
    destruct (lookup_lt_is_Some_2 strings j Hj) as [s Hs].
    unfold getitem. rewrite Hs. simpl.
    destruct IH as (rest & -> & Hrest).
    { intros j' Hj'. apply Hjs, elem_of_cons. by right. }
    simpl. eexists. split; [done |].
    intros j'. destruct (fullmatch pattern s) eqn:Hm.
    + rewrite !elem_of_cons, Hrest. split.
      * intros [->|[? ?]]; [eauto | tauto].
      * intros [[->|?] ?]; tauto.
    + rewrite elem_of_cons, Hrest. split; [tauto |].
      intros [[->|?] (s' & Hs' & Hm')]; [congruence | eauto].
Qed.

(** When the call returns, it returns one pair per pattern, in order,
    whose ids are the hits of the pattern. *)
Lemma against_loop_spec strings regexes (results out : list (string * list nat)) :
  against_loop (build_3mer_index strings) strings regexes results = Ok out →
  ∃ rows, out = results ++ rows ∧
    Forall2 (λ regex row, row.1 = regex ∧ ∀ j, j ∈ row.2 ↔ hit strings regex j)
            regexes rows.
Proof.
  revert results. induction regexes as [|regex regexes IH]; intros results; simpl.
  - intros [= <-]. exists []. by rewrite app_nil_r.
  - destruct (regex_literal_3mers regex) as [kmers|] eqn:Hk; [simpl | done].
    destruct (candidates _ kmers strings) as [ids|] eqn:Hc; [simpl | done].
    destruct (re_compile regex) as [pattern|] eqn:Hp; [simpl | done].
    destruct (matched_ids_spec pattern strings (elements ids)) as (matched & -> & Hm).
    { intros j Hj%elem_of_elements. by eapply candidates_in_bounds. }
    simpl. intros (rows & -> & Hrows)%IH.
    exists ((regex, matched) :: rows). split; [by rewrite <- app_assoc |].
    constructor; [|done]. split; [done |]. simpl.
    intros j. rewrite Hm, elem_of_elements. unfold hit, prepare.
    rewrite Hk. simpl. rewrite Hc. simpl. rewrite Hp. simpl. naive_solver.
Qed.

(** A pattern whose preparation raises aborts the whole call. *)
Lemma against_loop_raises strings regexes (results : list (string * list nat))
    (regex : string) :
  regex ∈ regexes →
  raises (regex_literal_3mers regex) ∨ raises (re_compile regex) →
  raises (against_loop (build_3mer_index strings) strings regexes results).
Proof.
  intros Hin Hfail. revert results.
  induction regexes as [|regex' regexes IH]; intros results; [by inversion Hin |].
  simpl.
  destruct (regex_literal_3mers regex') as [kmers|e] eqn:Hk; [simpl | by exists e].
  destruct (candidates _ kmers strings) as [ids|e] eqn:Hc; [simpl | by exists e].
  destruct (re_compile regex') as [pattern|e] eqn:Hp; [simpl | by exists e].
  destruct (matched_ids pattern strings (elements ids)) as [matched|e];
    [simpl | by exists e].
  apply elem_of_cons in Hin as [->|Hin]; [|by apply IH].
  destruct Hfail as [[e He]|[e He]]; congruence.
Qed.

(** Where [match_regexes_against_cdr3s] returns, its id lists are the
    columns holding a 1 in the rows of [match_regexes]. *)
Lemma against_agrees regexes strings (out : list (string * list nat)) :
  match_regexes_against_cdr3s regexes strings = Ok out →
  length out = length regexes ∧
  ∀ i regex ids, out !! i = Some (regex, ids) →
    regexes !! i = Some regex ∧
    ∀ j, j ∈ ids ↔ entry (tocsr (match_regexes_run regexes strings).1) i j = 1%Z.
Proof.
  intros (rows & -> & Hrows)%against_loop_spec. simpl.
  destruct (match_regexes_cells regexes strings) as (_ & _ & Hcells).
  split; [symmetry; by eapply Forall2_length |].
  intros i regex ids Hi.
  destruct (Forall2_lookup_r _ _ _ _ _ Hrows Hi) as (regex' & Hi' & Hreg & Hids).
  simpl in *. subst regex'. split; [done |].
  intros j. rewrite Hids, Hcells. split; [eauto |].
  intros (regex' & Hr' & ?). congruence.
Qed.

End claims.

(** ** The structure of the extracted k-mers *)

Lemma elem_of_foldl_add {A} (f : A → string) (js : list A) (kmers : gset string)
    (km : string) :
  km ∈ foldl (λ kmers i, kmers ∪ {[ f i ]}) kmers js ↔
  km ∈ kmers ∨ ∃ i, i ∈ js ∧ km = f i.
Proof.
  revert kmers. induction js as [|j js IH]; intros kmers; simpl.
  - set_solver.
  - rewrite IH. set_solver.
Qed.

Lemma elem_of_flush_buffer (kmers : gset string) (buffer : list ascii) (km : string) :
  km ∈ flush_buffer kmers buffer ↔
  km ∈ kmers ∨ ∃ i, i + 3 ≤ length buffer ∧ km = join_slice buffer i (i + 3).
Proof.
  unfold flush_buffer. destruct (3 <=? Z.of_nat (length buffer))%Z eqn:Hlen.
  - rewrite elem_of_foldl_add. setoid_rewrite elem_of_range.
    split; (intros [?|(i & Hi & ->)]; [by left | right; exists i; split; [lia | done]]).
  - apply Z.leb_gt in Hlen. split; [by left |].
    intros [?|(i & Hi & _)]; [done | lia].
Qed.

(** A full window of the buffer is three neighbouring characters of it. *)
Lemma join_slice_window (buffer : list ascii) (i : nat) :
  i + 3 ≤ length buffer →
  ∃ b1 a b c b2, buffer = b1 ++ [a; b; c] ++ b2 ∧
    join_slice buffer i (i + 3) = string_of_list_ascii [a; b; c].
Proof.
  intros Hi. unfold join_slice.
  pose proof (length_drop buffer i) as Hd.
  destruct (drop i buffer) as [|a [|b [|c b2]]] eqn:E; simpl in Hd; try lia.
  exists (take i buffer), a, b, c, b2. split.
  - rewrite <- (take_drop i buffer) at 1. by rewrite E.
  - by replace (i + 3 - i) with 3 by lia.
Qed.

Lemma window_app_r (tokens more : list token) (km : string) :
  window tokens km → window (tokens ++ more) km.
Proof.
  intros (pre & a & b & c & post & -> & ->).
  exists pre, a, b, c, (post ++ more). by rewrite <- !app_assoc.
Qed.

Lemma window_length (tokens : list token) (km : string) :
  window tokens km → String.length km = 3.
Proof. by intros (pre & a & b & c & post & _ & ->). Qed.

(** The k-mers flushed from a buffer that ends [tokens] are windows of it. *)
Lemma flush_buffer_window (tokens pre : list token) (kmers : gset string)
    (buffer : list ascii) (km : string) :
  tokens = pre ++ map LITERAL buffer →
  (∀ km, km ∈ kmers → window tokens km) →
  km ∈ flush_buffer kmers buffer → window tokens km.
Proof.
  intros -> Hk [?|(i & Hi & ->)]%elem_of_flush_buffer; [by apply Hk |].
  destruct (join_slice_window buffer i Hi) as (b1 & a & b & c & b2 & -> & ->).
  exists (pre ++ map LITERAL b1), a, b, c, (map LITERAL b2).
  split; [|done]. rewrite !map_app, <- !app_assoc. done.
Qed.

(** The loop invariant of the extractor: the buffer spells the literals
    that end the tokens read so far, and the k-mers are windows of them. *)
Lemma extract_loop_inv (tokens : list token) :
  let st := foldl extract_step (∅, []) tokens in
  (∃ pre, tokens = pre ++ map LITERAL st.2) ∧ ∀ km, km ∈ st.1 → window tokens km.
Proof.
  induction tokens as [|t tokens IH] using rev_ind; simpl.
  - split; [by exists [] | set_solver].
  - rewrite foldl_snoc. destruct IH as [[pre Hpre] Hk].
    set (st := foldl extract_step (∅, []) tokens) in *.
    assert (∀ km, km ∈ flush_buffer st.1 st.2 → window (tokens ++ [t]) km) as Hflush.
    { intros km Hkm. apply window_app_r. by eapply flush_buffer_window. }
    destruct t; simpl;
      try (split; [eexists; symmetry; apply app_nil_r | exact Hflush]).
    split.
    + exists pre. rewrite map_app, app_assoc, <- Hpre. done.
    + intros km Hkm. by apply window_app_r, Hk.
Qed.

(** Every extracted k-mer is spelled by three neighbouring literal tokens
    of the top-level sequence. *)
Lemma literal_3mers_window (tokens : list token) (km : string) :
  km ∈ literal_3mers tokens → window tokens km.
Proof.
  unfold literal_3mers. destruct (extract_loop_inv tokens) as [[pre Hpre] Hk].
  intros Hkm. by eapply flush_buffer_window.
Qed.

Lemma list_ascii_of_string_app (a b : string) :
  list_ascii_of_string (a +:+ b) = list_ascii_of_string a ++ list_ascii_of_string b.
Proof. induction a as [|c a IH]; [done |]. cbn. by rewrite <- IH. Qed.

(** A substring of length 3 of a corpus string is a key of the index with
    the id of the string in its posting set. *)
Lemma substring_posting (strings : list string) (j : nat) (s km : string) :
  strings !! j = Some s → substring_of km s → String.length km = 3 →
  j ∈ posting (build_3mer_index strings) km.
Proof.
  intros Hs (pre & post & ->) Hlen. apply posting_build.
  exists (pre +:+ km +:+ post), (String.length pre). split; [done |].
  rewrite <- length_list_of_string in Hlen.
  rewrite <- !length_list_of_string. unfold slice.
  rewrite !list_ascii_of_string_app, !length_app. split; [lia |].
  rewrite drop_app_length.
  replace (length (list_ascii_of_string pre) + 3 - length (list_ascii_of_string pre))
    with (length (list_ascii_of_string km)) by lia.
  rewrite take_app_length. apply string_of_list_ascii_of_string.
Qed.

(** ** The filter against the exhaustive reference *)

Section reference.
Context `{ReEngine}.
Implicit Types (strings regexes : list string) (mat : matrix).

Lemma regex_literal_3mers_length (regex : string) (kmers : gset string) (km : string) :
  regex_literal_3mers regex = Ok kmers → km ∈ kmers → String.length km = 3.
Proof.
  unfold regex_literal_3mers. destruct (sre_parse_parse regex) as [p|]; [simpl | done].
  intros [= <-] Hkm%literal_3mers_window. by eapply window_length.
Qed.

(** What the loop body stores is accepted by the compiled pattern. *)
Lemma hit_fullmatch strings (regex : string) (j : nat) :
  hit strings regex j →
  ∃ pattern s, re_compile regex = Ok pattern ∧ strings !! j = Some s ∧
               fullmatch pattern s = true.
Proof.
  intros (ids & pattern & s & Hp & _ & Hs & Hm). exists pattern, s.
  split_and!; [|done..]. unfold prepare in Hp.
  destruct (regex_literal_3mers regex); [simpl in Hp | done].
  destruct (candidates _ _ strings); [simpl in Hp | done].
  destruct (re_compile regex); [simpl in Hp | done]. congruence.
Qed.

(** When the extracted k-mers are necessary for a match, every accepted
    string passes the filter. *)
Lemma hit_complete strings (regex : string) (kmers : gset string) (pattern : Pattern)
    (j : nat) (s : string) :
  regex_literal_3mers regex = Ok kmers → re_compile regex = Ok pattern →
  necessary kmers pattern →
  strings !! j = Some s → fullmatch pattern s = true →
  hit strings regex j.
Proof.
  intros Hk Hc Hnec Hs Hm. unfold hit, prepare. rewrite Hk. simpl.
  destruct (candidates_Ok (build_3mer_index strings) kmers strings) as [ids Hids].
  rewrite Hids. simpl. rewrite Hc. simpl.
  exists ids, pattern, s. split_and!; [done | | done | done].
  unfold candidates in Hids. case_decide as Hempty.
  - injection Hids as <-. apply elem_of_all_ids. by eapply lookup_lt_Some.
  - apply elements_nonempty in Hempty.
    destruct (elements kmers) as [|km kms] eqn:E; [done |].
    destruct (query_3mers_cons (build_3mer_index strings) km kms) as (ids' & Hq & Hin).
    rewrite Hq in Hids. injection Hids as ->. apply Hin.
    intros km' Hkm'. rewrite <- E in Hkm'. apply elem_of_elements in Hkm'.
    eapply substring_posting; [done | by eapply Hnec |].
    by eapply regex_literal_3mers_length.
Qed.

Lemma naive_row_spec (pattern : Pattern) (i : nat) (l : list (nat * string)) mat :
  i < (shape mat).1 → (∀ j s, (j, s) ∈ l → j < (shape mat).2) →
  ∃ mat', naive_row pattern i l mat = (mat', None) ∧
    shape mat' = shape mat ∧
    (all_ones mat → all_ones mat') ∧
    ∀ i' j', stored mat' i' j' ↔
      stored mat i' j' ∨ (i' = i ∧ ∃ s, (j', s) ∈ l ∧ fullmatch pattern s = true).
Proof.
  intros Hi. revert mat Hi. induction l as [|[j s] l IH]; intros mat Hi Hl; simpl.
  - exists mat. split_and!; [done.. |]. set_solver.
  - assert (j < (shape mat).2) as Hj by (eapply Hl, elem_of_cons; by left).
    assert (∀ j' s', (j', s') ∈ l → j' < (shape mat).2) as Hl'
      by (intros; eapply Hl, elem_of_cons; by right).
    destruct (fullmatch pattern s) eqn:Hm.
    + rewrite setitem_Ok by done.
      edestruct (IH {| shape := shape mat; cells := <[(i, j) := 1%Z]> (cells mat) |})
        as (mat' & -> & Hshape & Hones & Hst); [done.. |].
      exists mat'. split_and!; [done | done | |].
      * intros Hm1. apply Hones. intros c v. simpl.
        destruct (decide (c = (i, j))) as [->|Hne].
        -- rewrite lookup_insert_eq. congruence.
        -- rewrite lookup_insert_ne by done. apply Hm1.
      * intros i' j'. rewrite Hst. unfold stored at 1. simpl.
        destruct (decide ((i, j) = (i', j'))) as [[= <- <-]|Hne].
        -- rewrite lookup_insert_eq. split; [|tauto].
           intros _. right. split; [done |]. exists s.
           split; [apply elem_of_cons; by left | done].
        -- rewrite lookup_insert_ne by done. fold (stored mat i' j').
           split; [set_solver |].
           intros [?|(-> & s' & [[= -> ->]|?]%elem_of_cons & ?)];
             [by left | done | right; eauto].
    + destruct (IH mat) as (mat' & -> & Hshape & Hones & Hst); [done.. |].
      exists mat'. split_and!; [done.. |].
      intros i' j'. rewrite Hst. split; [set_solver |].
      intros [?|(-> & s' & [[= -> ->]|?]%elem_of_cons & Hm')];
        [by left | congruence | right; eauto].
Qed.

Lemma naive_loop_spec strings (l : list (nat * string)) mat :
  (shape mat).2 = length strings →
  (∀ i regex, (i, regex) ∈ l → i < (shape mat).1) →
  let mat' := foldl (naive_step strings) mat l in
  shape mat' = shape mat ∧
  (all_ones mat → all_ones mat') ∧
  ∀ i j, stored mat' i j ↔
    stored mat i j ∨
    ∃ regex pattern s, (i, regex) ∈ l ∧ re_compile regex = Ok pattern ∧
      strings !! j = Some s ∧ fullmatch pattern s = true.
Proof.
  revert mat. induction l as [|[i0 regex0] l IH]; intros mat Hcols Hrows; simpl.
  - split_and!; [done | done |]. set_solver.
  - set (mat1 := naive_step strings mat (i0, regex0)).
    assert (shape mat1 = shape mat ∧ (all_ones mat → all_ones mat1) ∧
            ∀ i j, stored mat1 i j ↔ stored mat i j ∨
              (i = i0 ∧ ∃ pattern s, re_compile regex0 = Ok pattern ∧
                 strings !! j = Some s ∧ fullmatch pattern s = true))
      as (Hshape & Hones & Hst).
    { subst mat1. unfold naive_step. simpl.
      destruct (re_compile regex0) as [pattern|e].
      - destruct (naive_row_spec pattern i0 (enumerate strings) mat)
          as (mat' & -> & Hshape & Hones & Hst).
        { eapply Hrows, elem_of_cons. by left. }
        { intros j s Hin%elem_of_enumerate. rewrite Hcols. by eapply lookup_lt_Some. }
        simpl. split_and!; [done | done |].
        intros i j. rewrite Hst. setoid_rewrite elem_of_enumerate. naive_solver.
      - split_and!; [done | done |]. naive_solver. }
    destruct (IH mat1) as (Hshape' & Hones' & Hst').
    { congruence. }
    { intros i regex Hin. rewrite Hshape. eapply Hrows, elem_of_cons. by right. }
    split_and!; [congruence | auto |].
    intros i j. rewrite Hst', Hst. split.
    + intros [[?|(-> & pattern & s & ? & ? & ?)]|(regex & pattern & s & ? & ?)];
        [by left | |].
      * right. exists regex0, pattern, s. split; [apply elem_of_cons; by left | done].
      * right. exists regex, pattern, s. split; [apply elem_of_cons; by right | done].
    + intros [?|(regex & pattern & s & [[= -> ->]|?]%elem_of_cons & ?)].
      * by left; left.
      * left; right. eauto.
      * right. eauto 6.
Qed.

(** The exhaustive reference, cell by cell. *)
Lemma naive_matrix_cells regexes strings :
  shape (naive_matrix regexes strings) = (length regexes, length strings) ∧
  all_ones (naive_matrix regexes strings) ∧
  ∀ i j, entry (naive_matrix regexes strings) i j = 1%Z ↔
    ∃ regex pattern s, regexes !! i = Some regex ∧ re_compile regex = Ok pattern ∧
      strings !! j = Some s ∧ fullmatch pattern s = true.
Proof.
  unfold naive_matrix.
  destruct (naive_loop_spec strings (enumerate regexes)
              (lil_matrix (length regexes) (length strings)))
    as (Hshape & Hones & Hst).
  { done. }
  { intros i regex Hin%elem_of_enumerate. simpl. by eapply lookup_lt_Some. }
  assert (all_ones (lil_matrix (length regexes) (length strings))) as H0.
  { intros c v. unfold lil_matrix. simpl. by rewrite lookup_empty. }
  split_and!; [done | auto |].
  intros i j. rewrite entry_stored by auto. rewrite Hst.
  setoid_rewrite elem_of_enumerate.
  unfold stored, lil_matrix. simpl. rewrite lookup_empty. naive_solver.
Qed.

(** The filter never adds a match: a 1 of [match_regexes] is a 1 of the
    exhaustive reference. *)
Lemma match_regexes_no_false_positive regexes strings (i j : nat) :
  entry (tocsr (match_regexes_run regexes strings).1) i j = 1%Z →
  entry (naive_matrix regexes strings) i j = 1%Z.
Proof.
  destruct (match_regexes_cells regexes strings) as (_ & _ & Hm).
  destruct (naive_matrix_cells regexes strings) as (_ & _ & Hn).
  rewrite Hm, Hn.
  intros (regex & Hi & (pattern & s & ? & ? & ?)%hit_fullmatch).
  by exists regex, pattern, s.
Qed.

(** When the k-mers extracted from every pattern that compiles are
    necessary for its matches, [match_regexes] is the exhaustive reference. *)
Lemma match_regexes_exhaustive regexes strings :
  (∀ regex pattern, regex ∈ regexes → re_compile regex = Ok pattern →
     ∃ kmers, regex_literal_3mers regex = Ok kmers ∧ necessary kmers pattern) →
  ∀ i j, entry (tocsr (match_regexes_run regexes strings).1) i j
         = entry (naive_matrix regexes strings) i j.
Proof.
  intros Hnec i j.
  destruct (match_regexes_cells regexes strings) as (_ & Hmo & Hm).
  destruct (naive_matrix_cells regexes strings) as (_ & Hno & Hn).
  assert (entry (tocsr (match_regexes_run regexes strings).1) i j = 1%Z ↔
          entry (naive_matrix regexes strings) i j = 1%Z) as Hiff.
  { split; [apply match_regexes_no_false_positive |].
    rewrite Hm, Hn. intros (regex & pattern & s & Hi & Hc & Hs & Hfm).
    exists regex. split; [done |].
    destruct (Hnec regex pattern) as (kmers & Hk & Hn'); [by eapply list_elem_of_lookup_2 | done |].
    by eapply hit_complete. }
  destruct (entry_zero_or_one _ i j Hmo) as [E1|E1],
           (entry_zero_or_one _ i j Hno) as [E2|E2]; try congruence.
  - apply Hiff in E2. congruence.
  - apply Hiff in E1. congruence.
Qed.

End reference.

(** ** The modelled host engine: case-sensitive patterns *)

Section sre_sound.
Local Existing Instance Sre.engine.

Lemma nullable_lang (r : Sre.rx) : Sre.nullable r = true → lang r [].
Proof.
  induction r as [| |test|a IHa b IHb|a IHa b IHb|a IHa]; simpl; try done.
  - intros _. constructor.
  - intros [Ha Hb]%andb_true_iff. apply (lang_Cat a b [] []); auto.
  - intros [Ha|Hb]%orb_true_iff; [apply lang_Alt_l | apply lang_Alt_r]; auto.
  - intros _. constructor.
Qed.

Lemma deriv_lang (ch : ascii) (r : Sre.rx) (s : list ascii) :
  lang (Sre.deriv ch r) s → lang r (ch :: s).
Proof.
  revert s. induction r as [| |test|a IHa b IHb|a IHa b IHb|a IHa]; simpl; intros s Hl.
  - inversion Hl.
  - inversion Hl.
  - destruct (test ch) eqn:Ht; inversion Hl; subst. by constructor.
  - assert (∀ s, lang (Sre.Cat (Sre.deriv ch a) b) s → lang (Sre.Cat a b) (ch :: s))
      as Hcat.
    { intros s' Hs'. inversion Hs' as [| |a' b' u v Hu Hv| | | |]; subst.
      apply (lang_Cat a b (ch :: u) v); auto. }
    destruct (Sre.nullable a) eqn:Hn; [|by apply Hcat].
    inversion Hl as [| | |a' b' s' Hs'|a' b' s' Hs'| |]; subst; [by apply Hcat |].
    apply (lang_Cat a b [] (ch :: s)); [by apply nullable_lang | auto].
  - inversion Hl; subst; [apply lang_Alt_l | apply lang_Alt_r]; auto.
  - inversion Hl as [| |a' b' u v Hu Hv| | | |]; subst.
    apply (lang_Star_app a (ch :: u) v); auto.
Qed.

(** The matcher accepts only strings of the language of the pattern. *)
Lemma rx_fullmatch_lang (r : Sre.rx) (s : list ascii) :
  Sre.rx_fullmatch r s = true → lang r s.
Proof.
  unfold Sre.rx_fullmatch. revert r. induction s as [|ch s IH]; simpl; intros r Hm.
  - by apply nullable_lang.
  - by apply deriv_lang, IH.
Qed.

Lemma lang_compile_seq_app (flags : Z) (p q : list token) (s : list ascii) :
  lang (Sre.compile_seq flags (p ++ q)) s →
  ∃ u v, s = u ++ v ∧ lang (Sre.compile_seq flags p) u ∧ lang (Sre.compile_seq flags q) v.
Proof.
  revert s. induction p as [|t p IH]; simpl; intros s Hl.
  - exists [], s. split_and!; [done | constructor | done].
  - inversion Hl as [| |a b x y Hx Hy| | | |]; subst.
    destruct (IH y Hy) as (u & v & -> & Hu & Hv).
    exists (x ++ u), v. split_and!; [by rewrite app_assoc | by constructor | done].
Qed.

Lemma lang_literal (flags : Z) (c : ascii) (s : list ascii) :
  Sre.has_flag flags SRE_FLAG_IGNORECASE = false →
  lang (Sre.Chr (Sre.literal_test flags c)) s → s = [c].
Proof.
  intros Hf Hl. inversion Hl as [|test ch Ht| | | | |]; subst.
  unfold Sre.literal_test in Ht. rewrite Hf in Ht.
  apply Ascii.eqb_eq in Ht. by subst.
Qed.

(** Without [IGNORECASE], three neighbouring literal tokens of the top
    level occur, in that order and side by side, in every accepted string. *)
Lemma lang_window (flags : Z) (pre post : list token) (a b c : ascii) (s : list ascii) :
  Sre.has_flag flags SRE_FLAG_IGNORECASE = false →
  lang (Sre.compile_seq flags (pre ++ [LITERAL a; LITERAL b; LITERAL c] ++ post)) s →
  ∃ u v, s = u ++ [a; b; c] ++ v.
Proof.
  intros Hf (u & w & -> & _ & Hw)%lang_compile_seq_app.
  apply lang_compile_seq_app in Hw as (m & v & -> & Hm & _).
  exists u, v. do 2 f_equal. simpl in Hm.
  inversion Hm as [| |? ? x1 y1 Hx1 Hy1| | | |]; subst.
  inversion Hy1 as [| |? ? x2 y2 Hx2 Hy2| | | |]; subst.
  inversion Hy2 as [| |? ? x3 y3 Hx3 Hy3| | | |]; subst.
  inversion Hy3; subst.
  apply (lang_literal flags) in Hx1, Hx2, Hx3; [|done..]. by subst.
Qed.

(** On the modelled engine the extracted k-mers of a pattern parsed
    without [IGNORECASE] are necessary for its matches. *)
Lemma sre_necessary (p : SubPattern) :
  Sre.has_flag (state_flags p) SRE_FLAG_IGNORECASE = false →
  necessary (literal_3mers (data p)) (Sre.compile_seq (state_flags p) (data p)).
Proof.
  intros Hf s km Hm (pre & a & b & c & post & Hdata & ->)%literal_3mers_window.
  apply rx_fullmatch_lang in Hm. rewrite Hdata in Hm.
  apply lang_window in Hm as (u & v & Hs); [|done].
  exists (string_of_list_ascii u), (string_of_list_ascii v).
  rewrite <- !string_of_list_ascii_app, <- Hs.
  symmetry. apply string_of_list_ascii_of_string.
Qed.

End sre_sound.

(** ** The claims on the modelled host engine *)

Section host.
Local Existing Instance Sre.engine.

(** C9, as the specification has it, fails: the query with no k-mer does
    not raise. *)
Lemma query_3mers_nil_returns :
  ¬ raises (query_3mers (build_3mer_index ["ABCDE"; "CDEFG"; "XYZAB"]) []).
Proof. intros [e He]. discriminate He. Qed.

Lemma not_substring_abc : ¬ substring_of "abc" "ABC".
Proof.
  intros (pre & post & E).
  destruct pre as [|? [|? [|? [|? ?]]]]; cbv [String.append] in E; congruence.
Qed.

(** C2 at the pattern [(?i)abc]: the extractor returns the 3-mer [abc],
    the pattern full-matches [ABC], and [abc] is not a substring of [ABC]:
    the inline flag that folds case is not seen by the extractor. *)
Theorem regex_literal_3mers_ignores_flags :
  regex_literal_3mers "(?i)abc" = Ok {["abc"]} ∧
  (∃ pattern, re_compile "(?i)abc" = Ok pattern ∧ fullmatch pattern "ABC" = true) ∧
  ¬ substring_of "abc" "ABC".
Proof.
  split_and!.
  - vm_compute. reflexivity.
  - eexists. split; [reflexivity | vm_compute; reflexivity].
  - exact not_substring_abc.
Qed.

(** C1 at the pattern [(?i)abc] and the corpus [["ABC"]]: the pattern
    compiles and full-matches the string, the exhaustive reference stores a
    1, and [match_regexes] leaves the cell at 0. *)
Theorem match_regexes_misses_folded_case :
  (∃ pattern, re_compile "(?i)abc" = Ok pattern ∧ fullmatch pattern "ABC" = true) ∧
  entry (naive_matrix ["(?i)abc"] ["ABC"]) 0 0 = 1%Z ∧
  ∃ mat, match_regexes ["(?i)abc"] ["ABC"] = Ok mat ∧
         shape mat = (1, 1) ∧ entry mat 0 0 = 0%Z.
Proof.
  split_and!.
  - eexists. split; [reflexivity | vm_compute; reflexivity].
  - vm_compute. reflexivity.
  - eexists. split; [reflexivity |]. split; vm_compute; reflexivity.
Qed.

(** C4 at the patterns [["CASS.*"; "[INVALID"]]: [match_regexes] returns
    the 2 × 2 matrix with the first row filled and the second row zero,
    and [match_regexes_against_cdr3s] raises [re.error] and returns no
    pair at all. *)
Theorem against_cdr3s_aborts_on_invalid :
  match_regexes_against_cdr3s ["CASS.*"; "[INVALID"] ["CASSYEQYF"; "CASRNEQYF"]
    = Raise (re_error "unterminated character set") ∧
  ∃ mat, match_regexes ["CASS.*"; "[INVALID"] ["CASSYEQYF"; "CASRNEQYF"] = Ok mat ∧
         shape mat = (2, 2) ∧
         entry mat 0 0 = 1%Z ∧ entry mat 0 1 = 0%Z ∧
         entry mat 1 0 = 0%Z ∧ entry mat 1 1 = 0%Z.
Proof.
  split.
  - vm_compute. reflexivity.
  - eexists. split; [reflexivity |]. split_and!; vm_compute; reflexivity.
Qed.

(** *** The scenarios of the test suite *)

Example scenario_index :
  posting (build_3mer_index ["ABCDE"; "CDEFG"; "XYZAB"]) "ABC" = {[0]} ∧
  posting (build_3mer_index ["ABCDE"; "CDEFG"; "XYZAB"]) "CDE" = {[0; 1]} ∧
  query_3mers (build_3mer_index ["ABCDE"; "CDEFG"; "ABCFG"]) ["ABC"; "CDE"] = Ok {[0]}.
Proof. split_and!; vm_compute; reflexivity. Qed.

Example scenario_pure_literal :
  regex_literal_3mers "ABCDEF" = Ok {["ABC"; "BCD"; "CDE"; "DEF"]}.
Proof. vm_compute. reflexivity. Qed.

Example scenario_unpacked_group :
  Sre.parse "AB(?:CD)EF|AB(?:CD)EG" =
    Ok {| state_flags := 32;
          data := [LITERAL "A"; LITERAL "B"; LITERAL "C"; LITERAL "D"; LITERAL "E";
                   IN false [SET_LITERAL "F"; SET_LITERAL "G"]] |}.
Proof. reflexivity. Qed.

Example scenario_rows :
  ∃ mat, match_regexes ["ABC.*"; ".*DEF"] ["ABCXYZ"; "XYZDEF"; "ABCDEF"; "XYZ"] = Ok mat ∧
    map (entry mat 0) [0; 1; 2; 3] = [1; 0; 1; 0]%Z ∧
    map (entry mat 1) [0; 1; 2; 3] = [0; 1; 1; 0]%Z.
Proof. eexists. split; [reflexivity |]. split; vm_compute; reflexivity. Qed.

Example scenario_invalid_logged :
  length (match_regexes_run ["CASS.*"; "[INVALID"] ["CASSYEQYF"; "CASRNEQYF"]).2 = 1.
Proof. vm_compute. reflexivity. Qed.

Example scenario_empty_shapes :
  (∃ mat, match_regexes ["CASS.*"] [] = Ok mat ∧ shape mat = (1, 0)) ∧
  (∃ mat, match_regexes [] ["CASSYEQYF"] = Ok mat ∧ shape mat = (0, 1)).
Proof. split; eexists; (split; [reflexivity |]); vm_compute; reflexivity. Qed.

Example scenario_id_lists :
  ∃ out, match_regexes_against_cdr3s ["CASS.*"; ".*YEQYF"]
           ["CASSXYZF"; "XYZTYEQYF"; "CASSYEQYF"; "RANDOM"] = Ok out ∧
    map (λ row, (row.1, list_to_set row.2 : gset nat)) out
      = [("CASS.*", {[0; 2]}); (".*YEQYF", {[1; 2]})].
Proof. eexists. split; vm_compute; reflexivity. Qed.

(** *** Instances *)

(** C5 on the corpus of the test suite, and on a corpus with a short string. *)
Lemma build_3mer_index_windows_witness :
  (∃ ids, build_3mer_index ["ABCDE"; "CDEFG"; "XYZAB"] !! "CDE" = Some ids ∧ 1 ∈ ids) ∧
  (∀ km ids, build_3mer_index ["AB"; "ABCDE"] !! km = Some ids → 0 ∉ ids).
Proof.
  split.
  - apply (proj1 (build_3mer_index_windows ["ABCDE"; "CDEFG"; "XYZAB"] 1 "CDEFG" eq_refl) 0);
      simpl; lia.
  - apply (proj2 (build_3mer_index_windows ["AB"; "ABCDE"] 0 "AB" eq_refl)).
    simpl. lia.
Defined.

(** C10 at the key [CDE] and the id 1. *)
Lemma build_3mer_index_genuine_witness :
  1 < length ["ABCDE"; "CDEFG"; "XYZAB"] ∧
  ∃ s, ["ABCDE"; "CDEFG"; "XYZAB"] !! 1 = Some s ∧
       String.length "CDE" = 3 ∧ substring_of "CDE" s.
Proof.
  apply (proj1 (build_3mer_index_genuine ["ABCDE"; "CDEFG"; "XYZAB"]) "CDE" {[0; 1]} 1).
  - vm_compute. reflexivity.
  - apply elem_of_union. right. by apply elem_of_singleton.
Defined.

(** C6 at the query of [ABC] and [CDE]. *)
Lemma query_3mers_intersection_witness :
  ∃ ids, query_3mers (build_3mer_index ["ABCDE"; "CDEFG"; "ABCFG"]) ["ABC"; "CDE"] = Ok ids ∧
    (∀ i, i ∈ ids ↔
       ∀ km, km ∈ ["ABC"; "CDE"] →
         i ∈ default ∅ (build_3mer_index ["ABCDE"; "CDEFG"; "ABCFG"] !! km)) ∧
    ((∃ km, km ∈ ["ABC"; "CDE"] ∧
            build_3mer_index ["ABCDE"; "CDEFG"; "ABCFG"] !! km = None) → ids = ∅).
Proof.
  apply (query_3mers_intersection (build_3mer_index ["ABCDE"; "CDEFG"; "ABCFG"])
           ["ABC"; "CDE"]).
  discriminate.
Defined.

(** C7 at the pattern [A.*], which has no literal run of length 3. *)
Lemma match_regexes_fallback_witness :
  ∃ mat, match_regexes ["A.*"] ["AB"; "CD"] = Ok mat ∧
    ∀ j s, ["AB"; "CD"] !! j = Some s →
      (entry mat 0 j = 1%Z ↔
       fullmatch (Sre.compile_seq 32 [LITERAL "A"; MAX_REPEAT 0 None [ANY]]) s = true).
Proof.
  apply (match_regexes_fallback ["A.*"] ["AB"; "CD"] 0 "A.*").
  - reflexivity.
  - vm_compute. reflexivity.
  - reflexivity.
Defined.

(** C8 at the pattern [[INVALID]. *)
Lemma regex_literal_3mers_error_witness :
  regex_literal_3mers "[INVALID" = Raise (re_error "unterminated character set").
Proof. apply regex_literal_3mers_error. vm_compute. reflexivity. Defined.

End host.

(** * Further properties of the package *)

(** ** The index: keys, posting sets, growing the corpus *)

Lemma index_add_nonempty (index : gmap string (gset nat)) (km : string) (i : nat) :
  (∀ k ids, index !! k = Some ids → ids ≠ ∅) →
  ∀ k ids, index_add index km i !! k = Some ids → ids ≠ ∅.
Proof.
  intros Hne k ids. unfold index_add. destruct (decide (k = km)) as [->|Hk].
  - rewrite lookup_insert_eq. intros [= <-]. set_solver.
  - rewrite lookup_insert_ne by done. apply Hne.
Qed.

Lemma index_string_nonempty (index : gmap string (gset nat)) (i : nat) (s : string) :
  (∀ k ids, index !! k = Some ids → ids ≠ ∅) →
  ∀ k ids, index_string index i s !! k = Some ids → ids ≠ ∅.
Proof.
  unfold index_string. generalize (range (len s - 2)). intros js. revert index.
  induction js as [|j js IH]; intros index Hne; simpl; [done |].
  apply IH. by apply index_add_nonempty.
Qed.

Lemma build_3mer_index_nonempty (strings : list string) (km : string) (ids : gset nat) :
  build_3mer_index strings !! km = Some ids → ids ≠ ∅.
Proof.
  unfold build_3mer_index. generalize (enumerate strings). intros l.
  assert (∀ k ids, (∅ : gmap string (gset nat)) !! k = Some ids → ids ≠ ∅) as H0
    by (intros k ids'; by rewrite lookup_empty).
  revert H0. generalize (∅ : gmap string (gset nat)). intros index Hne.
  revert index Hne km ids. induction l as [|[i s] l IH]; intros index Hne; simpl.
  - apply Hne.
  - apply IH. by apply index_string_nonempty.
Qed.

(** The keys of the built index are exactly the substrings of length 3 of
    the corpus strings, and no key has an empty posting set: testing
    [kmer in index] is testing that some string contains the k-mer. *)
Theorem build_3mer_index_keys (strings : list string) (km : string) :
  (is_Some (build_3mer_index strings !! km) ↔
   String.length km = 3 ∧ ∃ i s, strings !! i = Some s ∧ substring_of km s) ∧
  (∀ ids, build_3mer_index strings !! km = Some ids → ids ≠ ∅).
Proof.
  split; [|intros ids; apply build_3mer_index_nonempty].
  split.
  - intros [ids Hids].
    pose proof (build_3mer_index_nonempty _ _ _ Hids) as Hne.
    apply set_choose_L in Hne as [i Hi].
    destruct (posting_genuine strings km i) as (_ & s & Hs & Hlen & Hsub).
    { apply posting_Some. eauto. }
    split; [done |]. eauto.
  - intros (Hlen & i & s & Hs & Hsub).
    pose proof (substring_posting strings i s km Hs Hsub Hlen) as Hp.
    apply posting_Some in Hp as (ids & Hids & _). eauto.
Qed.

(** Indexing a corpus followed by a second one gives, for every key, the
    postings of the first corpus together with those of the second, the
    ids of the second shifted by the length of the first. *)
Theorem build_3mer_index_app (strings more : list string) (km : string) (i : nat) :
  i ∈ posting (build_3mer_index (strings ++ more)) km ↔
  i ∈ posting (build_3mer_index strings) km ∨
  ∃ i', i = length strings + i' ∧ i' ∈ posting (build_3mer_index more) km.
Proof.
  rewrite !posting_build. setoid_rewrite posting_build.
  setoid_rewrite lookup_app_Some. split.
  - intros (s & j & [Hs|[Hle Hs]] & Hj & Hkm).
    + left. eauto.
    + right. exists (i - length strings). split; [lia |]. eauto.
  - intros [(s & j & Hs & Hj & Hkm)|(i' & -> & s & j & Hs & Hj & Hkm)].
    + exists s, j. eauto.
    + exists s, j. split_and!; [right; split; [lia |] | done | done].
      by replace (length strings + i' - length strings) with i' by lia.
Qed.

(** ** The query: what it answers on a built index, and how queries compose *)

(** On the index of a corpus, a query with at least one k-mer, all of
    length 3, returns exactly the ids of the strings that contain every
    listed k-mer. *)
Theorem query_3mers_contains (strings kmers : list string) :
  kmers ≠ [] → (∀ km, km ∈ kmers → String.length km = 3) →
  ∃ ids, query_3mers (build_3mer_index strings) kmers = Ok ids ∧
    ∀ i, i ∈ ids ↔
      ∃ s, strings !! i = Some s ∧ ∀ km, km ∈ kmers → substring_of km s.
Proof.
  intros Hne Hlen. destruct kmers as [|km0 kmers]; [done |].
  destruct (query_3mers_cons (build_3mer_index strings) km0 kmers) as (ids & Hq & Hids).
  exists ids. split; [done |]. intros i. rewrite Hids. split.
  - intros Hall.
    destruct (posting_genuine strings km0 i) as (_ & s & Hs & _).
    { apply Hall, elem_of_cons. by left. }
    exists s. split; [done |]. intros km Hkm.
    destruct (posting_genuine strings km i (Hall km Hkm)) as (_ & s' & Hs' & _ & Hsub).
    congruence.
  - intros (s & Hs & Hall) km Hkm.
    eapply substring_posting; [done | by apply Hall | by apply Hlen].
Qed.

(** A listed k-mer whose length is not 3 is never a key of a built index:
    the query is then empty. *)
Theorem query_3mers_wrong_length (strings kmers : list string) (km : string) :
  km ∈ kmers → String.length km ≠ 3 →
  query_3mers (build_3mer_index strings) kmers = Ok ∅.
Proof.
  intros Hkm Hlen. destruct kmers as [|km0 kmers]; [by inversion Hkm |].
  destruct (query_3mers_cons (build_3mer_index strings) km0 kmers) as (ids & -> & Hids).
  f_equal. apply set_eq. intros i. split; [|set_solver].
  intros Hi. pose proof (proj1 (Hids i) Hi km Hkm) as Hp.
  apply posting_genuine in Hp as (_ & s & _ & Hlen' & _). done.
Qed.

(** The answer depends on the set of the listed k-mers only, not on their
    order or on repetitions. *)
Theorem query_3mers_same_set (index : gmap string (gset nat)) (kmers kmers' : list string) :
  (∀ km, km ∈ kmers ↔ km ∈ kmers') →
  query_3mers index kmers = query_3mers index kmers'.
Proof.
  intros Hsame. destruct kmers as [|km kmers], kmers' as [|km' kmers'].
  - done.
  - exfalso. eapply not_elem_of_nil, Hsame, elem_of_cons. by left.
  - exfalso. eapply not_elem_of_nil, Hsame, elem_of_cons. by left.
  - destruct (query_3mers_cons index km kmers) as (ids & -> & Hids).
    destruct (query_3mers_cons index km' kmers') as (ids' & -> & Hids').
    f_equal. apply set_eq. intros i. rewrite Hids, Hids'.
    split; intros Hall k Hk; apply Hall, Hsame, Hk.
Qed.

(** Querying two non-empty lists at once is intersecting their answers. *)
Theorem query_3mers_app (index : gmap string (gset nat)) (kmers kmers' : list string) :
  kmers ≠ [] → kmers' ≠ [] →
  ∃ ids ids', query_3mers index kmers = Ok ids ∧ query_3mers index kmers' = Ok ids' ∧
    query_3mers index (kmers ++ kmers') = Ok (ids ∩ ids').
Proof.
  intros Hne Hne'. destruct kmers as [|km kmers]; [done |].
  destruct kmers' as [|km' kmers']; [done |].
  destruct (query_3mers_cons index km kmers) as (ids & Hq & Hids).
  destruct (query_3mers_cons index km' kmers') as (ids' & Hq' & Hids').
  exists ids, ids'. split_and!; [done | done |].
  change ((km :: kmers) ++ km' :: kmers') with (km :: (kmers ++ km' :: kmers')).
  destruct (query_3mers_cons index km (kmers ++ km' :: kmers')) as (ids2 & -> & Hids2).
  f_equal. apply set_eq. intros i. rewrite elem_of_intersection, Hids, Hids', Hids2.
  change (km :: (kmers ++ km' :: kmers')) with ((km :: kmers) ++ km' :: kmers').
  setoid_rewrite elem_of_app. naive_solver.
Qed.

(** ** The extractor: exactly the windows of the literal runs *)

Lemma window_nil (km : string) : ¬ window [] km.
Proof. intros (pre & a & b & c & post & E & _). by destruct pre. Qed.

(** A window of [t :: l] starts at [t] or is a window of [l]. *)
Lemma window_cons (t : token) (l : list token) (km : string) :
  window (t :: l) km ↔
  (∃ a b c post, t :: l = LITERAL a :: LITERAL b :: LITERAL c :: post ∧
                 km = string_of_list_ascii [a; b; c]) ∨
  window l km.
Proof.
  split.
  - intros ([|t' pre] & a & b & c & post & E & Hkm).
    + left. exists a, b, c, post. done.
    + right. injection E as -> ->. exists pre, a, b, c, post. done.
  - intros [(a & b & c & post & E & Hkm)|(pre & a & b & c & post & -> & Hkm)].
    + exists [], a, b, c, post. done.
    + exists (t :: pre), a, b, c, post. done.
Qed.

(** A token that is not a literal separates the windows on its left from
    those on its right. *)
Lemma window_split (l1 l2 : list token) (t : token) (km : string) :
  is_literal t = false →
  (window (l1 ++ t :: l2) km ↔ window l1 km ∨ window l2 km).
Proof.
  intros Ht. induction l1 as [|x l1 IH]; simpl.
  - rewrite window_cons. split.
    + intros [(a & b & c & post & [= -> _] & _)|?]; [done | by right].
    + intros [[]%window_nil|?]. by right.
  - rewrite !window_cons, IH. split.
    + intros [(a & b & c & post & E & Hkm)|[?|?]]; [|by left; right | by right].
      left; left. injection E as -> E.
      destruct l1 as [|y [|z l1]]; simpl in E.
      * injection E as -> _. done.
      * injection E as -> -> _. done.
      * injection E as -> -> _. by exists a, b, c, l1.
    + intros [[(a & b & c & post & E & Hkm)|?]|?]; [|by right; left | by right; right].
      left. injection E as -> ->. simpl. by exists a, b, c, (post ++ t :: l2).
Qed.

Lemma window_literals (buffer : list ascii) (km : string) :
  window (map LITERAL buffer) km ↔
  ∃ i, i + 3 ≤ length buffer ∧ km = join_slice buffer i (i + 3).
Proof.
  split.
  - induction buffer as [|x buffer IH]; simpl.
    + by intros []%window_nil.
    + intros [(a & b & c & post & E & ->)|Hw]%window_cons.
      * destruct buffer as [|y [|z buffer]]; simpl in E; try done.
        injection E as -> -> -> _. exists 0. split; [simpl; lia | done].
      * destruct (IH Hw) as (i & Hi & ->). exists (S i). split; [simpl; lia | done].
  - intros (i & Hi & ->).
    destruct (join_slice_window buffer i Hi) as (b1 & a & b & c & b2 & -> & ->).
    exists (map LITERAL b1), a, b, c, (map LITERAL b2).
    by rewrite !map_app.
Qed.

(** The extractor run from any state of its loop. *)
Lemma extract_loop_exact (tokens : list token) (kmers : gset string)
    (buffer : list ascii) (km : string) :
  let st := foldl extract_step (kmers, buffer) tokens in
  km ∈ flush_buffer st.1 st.2 ↔
  km ∈ kmers ∨ window (map LITERAL buffer ++ tokens) km.
Proof.
  revert kmers buffer. induction tokens as [|t tokens IH]; intros kmers buffer; simpl.
  - rewrite app_nil_r, elem_of_flush_buffer, window_literals. done.
  - destruct (is_literal t) eqn:Ht.
    + destruct t; try done. simpl. rewrite IH. simpl.
      by rewrite map_app, <- app_assoc.
    + assert (extract_step (kmers, buffer) t = (flush_buffer kmers buffer, [])) as ->
        by (by destruct t).
      rewrite IH. simpl. rewrite window_split by done.
      rewrite elem_of_flush_buffer, window_literals. tauto.
Qed.

(** The k-mers extracted from a token sequence are exactly the strings
    spelled by three neighbouring [LITERAL] tokens of its top level: every
    such triple is extracted and nothing else is, so every extracted k-mer
    has length 3 and a sequence without such a triple gives the empty set. *)
Theorem literal_3mers_exact (tokens : list token) (km : string) :
  km ∈ literal_3mers tokens ↔
  ∃ pre a b c post,
    tokens = pre ++ [LITERAL a; LITERAL b; LITERAL c] ++ post ∧
    km = string_of_list_ascii [a; b; c].
Proof.
  unfold literal_3mers. rewrite (extract_loop_exact tokens ∅ [] km). simpl.
  split; [intros [[]%not_elem_of_empty|?]; done | by right].
Qed.

(** ** The matrix, cell by cell *)

Section cells.
Context `{ReEngine}.
Implicit Types (strings regexes : list string) (mat : matrix).

(** The loop body writes the cell of a string exactly when the pattern
    parses and compiles, the string contains every extracted k-mer and the
    compiled pattern accepts it. *)
Lemma hit_iff strings (regex : string) (j : nat) :
  hit strings regex j ↔
  ∃ kmers pattern s,
    regex_literal_3mers regex = Ok kmers ∧ re_compile regex = Ok pattern ∧
    strings !! j = Some s ∧ (∀ km, km ∈ kmers → substring_of km s) ∧
    fullmatch pattern s = true.
Proof.
  split.
  - intros (ids & pattern & s & Hp & Hj & Hs & Hm). unfold prepare in Hp.
    destruct (regex_literal_3mers regex) as [kmers|] eqn:Hk; [simpl in Hp | done].
    destruct (candidates _ kmers strings) as [ids'|] eqn:Hc; [simpl in Hp | done].
    destruct (re_compile regex) as [pattern'|] eqn:Hcomp; [simpl in Hp | done].
    injection Hp as -> ->. exists kmers, pattern, s. split_and!; [done.. | | done].
    intros km Hkm. unfold candidates in Hc. case_decide as Hempty; [set_solver |].
    apply elem_of_elements in Hkm.
    destruct (elements kmers) as [|k ks] eqn:E; [by inversion Hkm |].
    destruct (query_3mers_cons (build_3mer_index strings) k ks) as (ids' & Hq & Hin).
    rewrite Hq in Hc. injection Hc as ->.
    pose proof (proj1 (Hin j) Hj km Hkm) as Hpost.
    apply posting_genuine in Hpost as (_ & s' & Hs' & _ & Hsub). congruence.
  - intros (kmers & pattern & s & Hk & Hcomp & Hs & Hsub & Hm).
    unfold hit, prepare. rewrite Hk. simpl.
    destruct (candidates_Ok (build_3mer_index strings) kmers strings) as [ids Hids].
    rewrite Hids. simpl. rewrite Hcomp. simpl.
    exists ids, pattern, s. split_and!; [done | | done | done].
    unfold candidates in Hids. case_decide as Hempty.
    + injection Hids as <-. apply elem_of_all_ids. by eapply lookup_lt_Some.
    + apply elements_nonempty in Hempty.
      destruct (elements kmers) as [|km kms] eqn:E; [done |].
      destruct (query_3mers_cons (build_3mer_index strings) km kms) as (ids' & Hq & Hin).
      rewrite Hq in Hids. injection Hids as ->. apply Hin.
      intros km' Hkm'. rewrite <- E in Hkm'. apply elem_of_elements in Hkm'.
      eapply substring_posting; [done | by apply Hsub |].
      by eapply regex_literal_3mers_length.
Qed.

(** C3: for [N] pattern strings and [M] corpus strings, [match_regexes]
    raises nothing and returns a matrix of shape [N × M] (so [(1, 0)] for
    an empty corpus and [(0, M)] for no pattern).  The row of a pattern
    whose extraction or compilation raises is all zero, and the batch
    continues: whatever the other patterns do, the row of a pattern that
    parses and compiles holds a 1 exactly at the strings that contain
    its extracted k-mers and that it full-matches, and every cell is 0 or 1. *)
Theorem match_regexes_shape regexes strings :
  ∃ mat, match_regexes regexes strings = Ok mat ∧
    shape mat = (length regexes, length strings) ∧
    (∀ i regex, regexes !! i = Some regex →
       raises (regex_literal_3mers regex) ∨ raises (re_compile regex) →
       ∀ j, entry mat i j = 0%Z) ∧
    (∀ i regex kmers pattern, regexes !! i = Some regex →
       regex_literal_3mers regex = Ok kmers → re_compile regex = Ok pattern →
       ∀ j s, strings !! j = Some s →
         (entry mat i j = 1%Z ↔
          (∀ km, km ∈ kmers → substring_of km s) ∧ fullmatch pattern s = true)) ∧
    (∀ i j, entry mat i j = 0%Z ∨ entry mat i j = 1%Z).
Proof.
  destruct (match_regexes_cells regexes strings) as (Hshape & Hones & Hcells).
  eexists. split_and!; [done | done | | |].
  - intros i regex Hi Hfail j.
    apply (prepare_raises strings) in Hfail.
    destruct (entry_zero_or_one _ i j Hones) as [?|Hone]; [done |].
    apply Hcells in Hone as (regex' & Hi' & ids & pattern & s & Hp & _).
    rewrite Hi in Hi'. injection Hi' as <-.
    destruct Hfail as [e He]. congruence.
  - intros i regex kmers pattern Hi Hk Hc j s Hs. rewrite Hcells. split.
    + intros (regex' & Hi' & (kmers' & pattern' & s' & ? & ? & ? & ? & ?)%hit_iff).
      assert (regex' = regex) as -> by congruence.
      assert (kmers' = kmers) as -> by congruence.
      assert (pattern' = pattern) as -> by congruence.
      assert (s' = s) as -> by congruence. done.
    + intros [Hsub Hm]. exists regex. split; [done |].
      apply hit_iff. by exists kmers, pattern, s.
  - intros i j. by apply entry_zero_or_one.
Qed.

(** What a cell of the result holds: [mat[i, j]] is 1 exactly when pattern
    [i] parses and compiles, string [j] contains every 3-mer extracted
    from the pattern, and the compiled pattern full-matches the string. *)
Theorem match_regexes_cell regexes strings (i j : nat) (regex s : string) :
  regexes !! i = Some regex → strings !! j = Some s →
  ∃ mat, match_regexes regexes strings = Ok mat ∧
    (entry mat i j = 1%Z ↔
     ∃ kmers pattern,
       regex_literal_3mers regex = Ok kmers ∧ re_compile regex = Ok pattern ∧
       (∀ km, km ∈ kmers → substring_of km s) ∧ fullmatch pattern s = true).
Proof.
  intros Hi Hj. eexists. split; [done |].
  destruct (match_regexes_cells regexes strings) as (_ & _ & ->). split.
  - intros (regex' & Hi' & (kmers & pattern & s' & ? & ? & Hs' & ? & ?)%hit_iff).
    assert (regex' = regex) as -> by congruence.
    assert (s' = s) as -> by congruence. by exists kmers, pattern.
  - intros (kmers & pattern & ? & ? & ? & ?). exists regex. split; [done |].
    apply hit_iff. by exists kmers, pattern, s.
Qed.

(** The cells are independent of one another: a cell of a batch is the
    only cell of the run on its pattern and its string alone. *)
Theorem match_regexes_cellwise regexes strings (i j : nat) (regex s : string) :
  regexes !! i = Some regex → strings !! j = Some s →
  ∃ mat mat1, match_regexes regexes strings = Ok mat ∧
    match_regexes [regex] [s] = Ok mat1 ∧
    entry mat i j = entry mat1 0 0.
Proof.
  intros Hi Hj. do 2 eexists. split_and!; [done.. |].
  destruct (match_regexes_cells regexes strings) as (_ & Hones & Hcell).
  destruct (match_regexes_cells [regex] [s]) as (_ & Hones1 & Hcell1).
  assert (entry (tocsr (match_regexes_run regexes strings).1) i j = 1%Z ↔
          entry (tocsr (match_regexes_run [regex] [s]).1) 0 0 = 1%Z) as Hiff.
  { rewrite Hcell, Hcell1. split.
    - intros (regex' & Hi' & (kmers & pattern & s' & ? & ? & Hs' & ? & ?)%hit_iff).
      assert (regex' = regex) as -> by congruence.
      assert (s' = s) as -> by congruence.
      exists regex. split; [done |]. apply hit_iff. by exists kmers, pattern, s.
    - intros (regex' & [= <-] & (kmers & pattern & s' & ? & ? & [= <-] & ? & ?)%hit_iff).
      exists regex. split; [done |]. apply hit_iff. by exists kmers, pattern, s. }
  destruct (entry_zero_or_one _ i j Hones) as [E|E],
           (entry_zero_or_one _ 0 0 Hones1) as [E1|E1]; try congruence.
  - apply Hiff in E1. congruence.
  - apply Hiff in E. congruence.
Qed.

(** Every cell is 0 or 1, and a 1 is inside the shape: a row index of a
    pattern and a column index of a string. *)
Theorem match_regexes_binary regexes strings :
  ∃ mat, match_regexes regexes strings = Ok mat ∧
    ∀ i j, (entry mat i j = 0%Z ∨ entry mat i j = 1%Z) ∧
           (entry mat i j = 1%Z → i < length regexes ∧ j < length strings).
Proof.
  eexists. split; [done |]. intros i j.
  destruct (match_regexes_cells regexes strings) as (_ & Hones & Hcell).
  split; [by apply entry_zero_or_one |].
  intros (regex & Hi & (ids & pattern & s & _ & _ & Hs & _))%Hcell.
  split; by eapply lookup_lt_Some.
Qed.

(** The filter only removes work: a 1 is always a true match, whatever
    the host engine and whatever the extractor returned.  Where
    [match_regexes] stores a 1, the pattern compiles and the compiled
    pattern full-matches the string. *)
Theorem match_regexes_true_match regexes strings :
  ∃ mat, match_regexes regexes strings = Ok mat ∧
    ∀ i j, entry mat i j = 1%Z →
      ∃ regex pattern s, regexes !! i = Some regex ∧ strings !! j = Some s ∧
        re_compile regex = Ok pattern ∧ fullmatch pattern s = true.
Proof.
  eexists. split; [done |]. intros i j.
  destruct (match_regexes_cells regexes strings) as (_ & _ & ->).
  intros (regex & Hi & (pattern & s & ? & ? & ?)%hit_fullmatch).
  by exists regex, pattern, s.
Qed.

(** With extracted k-mers that every accepted string contains, a cell is 1
    exactly when the pattern compiles and full-matches the string. *)
Lemma entry_exhaustive regexes strings (i j : nat) (regex s : string) :
  (∀ regex pattern, regex ∈ regexes → re_compile regex = Ok pattern →
     ∃ kmers, regex_literal_3mers regex = Ok kmers ∧ necessary kmers pattern) →
  regexes !! i = Some regex → strings !! j = Some s →
  (entry (tocsr (match_regexes_run regexes strings).1) i j = 1%Z ↔
   ∃ pattern, re_compile regex = Ok pattern ∧ fullmatch pattern s = true).
Proof.
  intros Hnec Hi Hj.
  destruct (match_regexes_cells regexes strings) as (_ & _ & ->). split.
  - intros (regex' & Hi' & (pattern & s' & ? & ? & ?)%hit_fullmatch).
    exists pattern. split; congruence.
  - intros (pattern & Hc & Hm). exists regex. split; [done |].
    destruct (Hnec regex pattern) as (kmers & Hk & Hsub);
      [by eapply list_elem_of_lookup_2 | done |].
    apply hit_iff. exists kmers, pattern, s.
    split_and!; [done.. | | done]. intros km Hkm. by eapply Hsub.
Qed.

(** When, for every pattern of the batch that compiles, the extractor
    returns k-mers that every accepted string contains, [match_regexes]
    is exhaustive: a cell is 1 exactly when the pattern of its row
    compiles and full-matches the string of its column. *)
Theorem match_regexes_exhaustive_when_necessary regexes strings :
  (∀ regex pattern, regex ∈ regexes → re_compile regex = Ok pattern →
     ∃ kmers, regex_literal_3mers regex = Ok kmers ∧
       ∀ s km, fullmatch pattern s = true → km ∈ kmers → substring_of km s) →
  ∃ mat, match_regexes regexes strings = Ok mat ∧
    ∀ i j regex s, regexes !! i = Some regex → strings !! j = Some s →
      (entry mat i j = 1%Z ↔
       ∃ pattern, re_compile regex = Ok pattern ∧ fullmatch pattern s = true).
Proof.
  intros Hnec. eexists. split; [done |]. intros i j regex s.
  by apply entry_exhaustive.
Qed.

End cells.

(** ** What is printed, and the id lists *)

Section reports.
Context `{ReEngine}.
Implicit Types (strings regexes : list string) (mat : matrix).

(** The exception the [try] block of a row ends with is the one its
    preparation raises, if any. *)
Lemma try_row_exn strings (i : nat) (regex : string) mat :
  i < (shape mat).1 → (shape mat).2 = length strings →
  (try_row (build_3mer_index strings) strings i regex mat).2 =
  match prepare (build_3mer_index strings) strings regex with
  | Raise e => Some e
  | Ok _ => None
  end.
Proof.
  intros Hi Hcols.
  destruct (try_row_spec strings i regex mat Hi Hcols) as (mat' & e & Ht & _ & _ & _ & He).
  rewrite Ht. simpl. unfold try_row in Ht.
  destruct (prepare (build_3mer_index strings) strings regex) as [[ids pattern]|e'].
  - destruct e as [e|]; [|done]. destruct (proj1 He) as [? [=]]. eauto.
  - by injection Ht as _ <-.
Qed.

Lemma match_loop_printed strings (l : list (nat * string)) (st : matrix * list string) :
  (shape st.1).2 = length strings →
  (∀ i regex, (i, regex) ∈ l → i < (shape st.1).1) →
  (foldl (match_step (build_3mer_index strings) strings) st l).2 =
  st.2 ++ omap (λ ir, diagnostic strings ir.2) l.
Proof.
  revert st. induction l as [|[i0 regex0] l IH]; intros st Hcols Hrows; simpl.
  - by rewrite app_nil_r.
  - assert (i0 < (shape st.1).1) as Hi0 by (eapply Hrows, elem_of_cons; by left).
    destruct (try_row_spec strings i0 regex0 st.1 Hi0 Hcols)
      as (mat' & e & Ht & Hshape & _).
    pose proof (try_row_exn strings i0 regex0 st.1 Hi0 Hcols) as He.
    rewrite Ht in He. simpl in He.
    set (st1 := match_step (build_3mer_index strings) strings st (i0, regex0)).
    assert (st1.1 = mat' ∧
            st1.2 = st.2 ++ from_option (λ x, [x]) [] (diagnostic strings regex0))
      as [Hst1 Hout].
    { subst st1. unfold match_step, diagnostic. simpl. rewrite Ht.
      destruct (prepare (build_3mer_index strings) strings regex0); subst e; simpl.
      - by rewrite app_nil_r.
      - done. }
    rewrite IH.
    + rewrite Hout, <- app_assoc. f_equal.
      by destruct (diagnostic strings regex0).
    + rewrite Hst1. congruence.
    + intros i regex Hin. rewrite Hst1, Hshape. eapply Hrows, elem_of_cons. by right.
Qed.

Lemma omap_enumerate {A B} (f : A → option B) (l : list A) :
  omap (λ ix, f ix.2) (enumerate l) = omap f l.
Proof.
  unfold enumerate. generalize 0. induction l as [|x l IH]; intros n; simpl; [done |].
  destruct (f x); simpl; by rewrite IH.
Qed.

(** [match_regexes] prints one line for each pattern whose extraction or
    compilation raises, in the order of the patterns, naming the pattern
    and the text of its exception, and prints nothing else. *)
Theorem match_regexes_printed regexes strings :
  (match_regexes_run regexes strings).2 =
  omap (λ regex,
          match prepare (build_3mer_index strings) strings regex with
          | Raise e => Some ("Regex error (" +:+ regex +:+ "): " +:+ exn_str e)
          | Ok _ => None
          end) regexes.
Proof.
  unfold match_regexes_run. rewrite match_loop_printed.
  - simpl. apply (omap_enumerate (diagnostic strings)).
  - done.
  - intros i regex Hin%elem_of_enumerate. simpl. by eapply lookup_lt_Some.
Qed.

Lemma matched_ids_sublist (pattern : Pattern) strings (js matched : list nat) :
  matched_ids pattern strings js = Ok matched → matched `sublist_of` js.
Proof.
  revert matched. induction js as [|j js IH]; intros matched; simpl.
  - by intros [= <-].
  - destruct (getitem strings j) as [s|]; [simpl | done].
    destruct (matched_ids pattern strings js) as [rest|]; [simpl | done].
    intros [= <-]. specialize (IH rest eq_refl).
    destruct (fullmatch pattern s); by constructor.
Qed.

Lemma against_loop_total strings regexes (results : list (string * list nat)) :
  (∀ regex, regex ∈ regexes →
     ¬ raises (regex_literal_3mers regex) ∧ ¬ raises (re_compile regex)) →
  ∃ rows, against_loop (build_3mer_index strings) strings regexes results
            = Ok (results ++ rows) ∧
    Forall2 (λ regex row, row.1 = regex ∧ NoDup row.2 ∧
                          ∀ j, j ∈ row.2 ↔ hit strings regex j) regexes rows.
Proof.
  revert results. induction regexes as [|regex regexes IH]; intros results Hok; simpl.
  - exists []. by rewrite app_nil_r.
  - destruct (Hok regex) as [Hk Hc]; [apply elem_of_cons; by left |].
    destruct (regex_literal_3mers regex) as [kmers|e] eqn:Ek;
      [simpl | exfalso; apply Hk; by exists e].
    destruct (candidates_Ok (build_3mer_index strings) kmers strings) as [ids Eids].
    rewrite Eids. simpl.
    destruct (re_compile regex) as [pattern|e] eqn:Ec;
      [simpl | exfalso; apply Hc; by exists e].
    destruct (matched_ids_spec pattern strings (elements ids)) as (matched & Em & Hm).
    { intros j Hj%elem_of_elements. by eapply candidates_in_bounds. }
    rewrite Em. simpl.
    destruct (IH (results ++ [(regex, matched)])) as (rows & -> & Hrows).
    { intros r Hr. apply Hok, elem_of_cons. by right. }
    exists ((regex, matched) :: rows). split; [by rewrite <- app_assoc |].
    constructor; [|done]. simpl. split_and!; [done | |].
    + apply (sublist_NoDup matched (elements ids));
        [apply NoDup_elements | by eapply matched_ids_sublist].
    + intros j. rewrite Hm, elem_of_elements. unfold hit, prepare.
      rewrite Ek. simpl. rewrite Eids. simpl. rewrite Ec. simpl. naive_solver.
Qed.

(** When every pattern parses and compiles, [match_regexes_against_cdr3s]
    returns one pair per pattern, in the order of the patterns; each id
    list has no repetition and holds exactly the columns where the row of
    [match_regexes] has a 1. *)
Theorem against_cdr3s_returns regexes strings :
  (∀ regex, regex ∈ regexes →
     ¬ raises (regex_literal_3mers regex) ∧ ¬ raises (re_compile regex)) →
  ∃ out mat, match_regexes_against_cdr3s regexes strings = Ok out ∧
    match_regexes regexes strings = Ok mat ∧
    out.*1 = regexes ∧
    ∀ i regex ids, out !! i = Some (regex, ids) →
      NoDup ids ∧ ∀ j, j ∈ ids ↔ entry mat i j = 1%Z.
Proof.
  intros Hok. destruct (against_loop_total strings regexes [] Hok) as (rows & Hr & Hrows).
  simpl in Hr. exists rows. eexists. split_and!; [done | done | |].
  - clear Hr Hok. induction Hrows as [|regex row regexes rows [Hrow _] _ IH]; [done |].
    by rewrite fmap_cons, IH, Hrow.
  - intros i regex ids Hi.
    destruct (Forall2_lookup_r _ _ _ _ _ Hrows Hi) as (regex' & Hi' & _ & Hnd & Hids).
    simpl in *. split; [done |]. intros j.
    destruct (match_regexes_cells regexes strings) as (_ & _ & ->).
    rewrite Hids. split; [eauto |]. intros (regex'' & ? & ?). congruence.
Qed.

(** [match_regexes_against_cdr3s] stops at the first pattern whose
    extraction or compilation raises and raises that exception: the pairs
    of the patterns before it are lost. *)
Theorem against_cdr3s_first_failure regexes strings (before after : list string)
    (regex : string) (e : exn) :
  regexes = before ++ regex :: after →
  (∀ r, r ∈ before → ¬ raises (regex_literal_3mers r) ∧ ¬ raises (re_compile r)) →
  regex_literal_3mers regex = Raise e ∨
    (¬ raises (regex_literal_3mers regex) ∧ re_compile regex = Raise e) →
  match_regexes_against_cdr3s regexes strings = Raise e.
Proof.
  intros -> Hok Hfail. unfold match_regexes_against_cdr3s. generalize (@nil (string * list nat)).
  induction before as [|r before IH]; intros results; simpl.
  - destruct Hfail as [->|[Hk Hc]]; [done |].
    destruct (regex_literal_3mers regex) as [kmers|e'];
      [simpl | exfalso; apply Hk; by exists e'].
    destruct (candidates_Ok (build_3mer_index strings) kmers strings) as [ids ->].
    simpl. by rewrite Hc.
  - destruct (Hok r) as [Hk Hc]; [apply elem_of_cons; by left |].
    destruct (regex_literal_3mers r) as [kmers|e'] eqn:Ek;
      [simpl | exfalso; apply Hk; by exists e'].
    destruct (candidates_Ok (build_3mer_index strings) kmers strings) as [ids Eids].
    rewrite Eids. simpl.
    destruct (re_compile r) as [pattern|e'] eqn:Ec;
      [simpl | exfalso; apply Hc; by exists e'].
    destruct (matched_ids_spec pattern strings (elements ids)) as (matched & -> & _).
    { intros j Hj%elem_of_elements. by eapply candidates_in_bounds. }
    simpl. apply IH. intros r' Hr'. apply Hok, elem_of_cons. by right.
Qed.

End reports.

(** ** The sequence generators *)

Section generators.
Import Generators.

Lemma randint_spec (a b : Z) (g : Random) :
  (a ≤ b)%Z →
  ∃ n g', randint a b g = inr (n, g') ∧ (a ≤ n ≤ b)%Z.
Proof.
  intros Hab. unfold randint. rewrite (proj2 (Z.ltb_ge b a)) by done.
  unfold bind, _randbelow, ret. do 2 eexists. split; [done |].
  pose proof (Nat.mod_upper_bound (draws g (position g)) (Z.to_nat (b - a + 1))).
  lia.
Qed.

Lemma randint_empty (a b : Z) (g : Random) :
  (b < a)%Z → randint a b g = inl (ValueError "empty range for randrange()").
Proof. intros Hab. unfold randint. by rewrite (proj2 (Z.ltb_lt b a)). Qed.

Lemma choice_spec {A} (seq : list A) (g : Random) :
  seq ≠ [] → ∃ x g', choice seq g = inr (x, g') ∧ x ∈ seq.
Proof.
  intros Hne. destruct seq as [|x0 seq]; [done |].
  unfold choice, bind, _randbelow, ret. do 2 eexists. split; [done |].
  set (k := draws g (position g) mod length (x0 :: seq)).
  assert (k < length (x0 :: seq)) as Hk by (apply Nat.mod_upper_bound; simpl; lia).
  destruct (lookup_lt_is_Some_2 _ _ Hk) as [x Hx]. rewrite Hx. simpl.
  by eapply list_elem_of_lookup_2.
Qed.

Lemma choices_spec {A} (population : list A) (k : Z) (g : Random) :
  population ≠ [] →
  ∃ l g', choices population k g = inr (l, g') ∧
    length l = Z.to_nat k ∧ Forall (λ x, x ∈ population) l.
Proof.
  intros Hne. unfold choices. generalize (Z.to_nat k). clear k. intros k.
  revert g. induction k as [|k IH]; intros g; simpl.
  - exists [], g. done.
  - unfold bind at 1. unfold _randbelow at 1.
    set (i := draws g (position g) mod length population).
    assert (i < length population) as Hi.
    { apply Nat.mod_upper_bound. destruct population; simpl; [done | lia]. }
    destruct (lookup_lt_is_Some_2 _ _ Hi) as [x Hx]. rewrite Hx.
    unfold bind.
    destruct (IH {| draws := draws g; position := S (position g) |})
      as (l & g' & -> & Hlen & Hall).
    exists (x :: l), g'. split_and!; [done | simpl; lia |].
    constructor; [by eapply list_elem_of_lookup_2 | done].
Qed.

(** What [random_deletion] returns: the string without its last [n]
    characters, for some [n] it may draw. *)
Lemma random_deletion_spec (seq : string) (max_del : Z) (g : Random) :
  (0 ≤ max_del)%Z →
  ∃ n out g', random_deletion seq max_del g = inr (out, g') ∧
    (0 ≤ n ≤ Z.min max_del (len seq))%Z ∧
    out = string_of_list_ascii
            (take (Z.to_nat (len seq - n)) (list_ascii_of_string seq)).
Proof.
  intros Hmax. unfold random_deletion, bind.
  destruct (randint_spec 0 (Z.min max_del (len seq)) g) as (n & g' & -> & Hn).
  { unfold len. lia. }
  exists n. unfold ret. do 2 eexists. split; [done |]. split; [done |].
  destruct (0 <? n)%Z eqn:Hpos.
  - unfold slice_to. rewrite (proj2 (Z.ltb_lt (- n) 0)) by lia.
    by replace (len seq + - n)%Z with (len seq - n)%Z by lia.
  - apply Z.ltb_ge in Hpos. replace n with 0%Z by lia.
    unfold len. rewrite Z.sub_0_r, Nat2Z.id, <- length_list_of_string, firstn_all.
    by rewrite string_of_list_ascii_of_string.
Qed.

(** [random_deletion] with a bound [max_del ≥ 0] returns a prefix of the
    sequence that lacks at most [max_del] characters and never more than
    the sequence has; with a negative bound it raises [ValueError]. *)
Theorem random_deletion_prefix (seq : string) (max_del : Z) (g : Random) :
  ((0 ≤ max_del)%Z →
     ∃ out g', random_deletion seq max_del g = inr (out, g') ∧
       (∃ rest, seq = out +:+ rest) ∧
       (len seq - max_del ≤ len out ≤ len seq)%Z) ∧
  ((max_del < 0)%Z → ∃ msg, random_deletion seq max_del g = inl (ValueError msg)).
Proof.
  split.
  - intros Hmax.
    destruct (random_deletion_spec seq max_del g Hmax) as (n & out & g' & -> & Hn & ->).
    do 2 eexists. split; [done |]. split.
    + exists (string_of_list_ascii
                (drop (Z.to_nat (len seq - n)) (list_ascii_of_string seq))).
      by rewrite <- string_of_list_ascii_app, take_drop, string_of_list_ascii_of_string.
    + unfold len in *. rewrite string_length_of_list, length_take, length_list_of_string.
      lia.
  - intros Hneg. unfold random_deletion, bind. rewrite randint_empty; [eauto |].
    unfold len. lia.
Qed.

Lemma random_insertion_spec (max_len : Z) (g : Random) :
  (0 ≤ max_len)%Z →
  ∃ out g', random_insertion max_len g = inr (out, g') ∧
    (len out ≤ max_len)%Z ∧ amino out.
Proof.
  intros Hmax. unfold random_insertion, bind.
  destruct (randint_spec 0 max_len g Hmax) as (n & g1 & -> & Hn).
  destruct (choices_spec AMINO_ACIDS n g1) as (l & g2 & -> & Hlen & Hall); [done |].
  unfold ret. do 2 eexists. split; [done |]. split.
  - unfold len. rewrite string_length_of_list. lia.
  - unfold amino. by rewrite list_ascii_of_string_of_list_ascii.
Qed.

(** [random_insertion] with a bound [max_len ≥ 0] returns at most
    [max_len] characters, all of them amino-acid letters; with a negative
    bound it raises [ValueError]. *)
Theorem random_insertion_amino (max_len : Z) (g : Random) :
  ((0 ≤ max_len)%Z →
     ∃ out g', random_insertion max_len g = inr (out, g') ∧
       (len out ≤ max_len)%Z ∧ amino out) ∧
  ((max_len < 0)%Z → ∃ msg, random_insertion max_len g = inl (ValueError msg)).
Proof.
  split; [apply random_insertion_spec |].
  intros Hneg. unfold random_insertion, bind. rewrite randint_empty; eauto.
Qed.

Lemma string_app_assoc (a b c : string) : (a +:+ b) +:+ c = a +:+ (b +:+ c).
Proof.
  induction a as [|x a IH]; [done |].
  change (String x ((a +:+ b) +:+ c) = String x (a +:+ (b +:+ c))). by rewrite IH.
Qed.

Lemma len_app (a b : string) : len (a +:+ b) = (len a + len b)%Z.
Proof.
  unfold len. rewrite <- !length_list_of_string, list_ascii_of_string_app, length_app.
  lia.
Qed.

Lemma amino_app (a b : string) : amino (a +:+ b) ↔ amino a ∧ amino b.
Proof. unfold amino. rewrite list_ascii_of_string_app. apply Forall_app. Qed.

Ltac solve_amino :=
  unfold amino; apply (bool_decide_unpack _); vm_compute; reflexivity.

Ltac split_cases H :=
  repeat (apply elem_of_cons in H; destruct H as [-> | H]);
  [.. | by apply not_elem_of_nil in H].

(** The V motif trimmed by up to 2 characters keeps its first two. *)
Lemma v_trimmed_shape (v : string * string) (n : Z) :
  v ∈ TRBV_MOTIFS → (0 ≤ n ≤ Z.min 2 (len v.2))%Z →
  let out := string_of_list_ascii
               (take (Z.to_nat (len v.2 - n)) (list_ascii_of_string v.2)) in
  (∃ rest, out = "CA" +:+ rest) ∧ (2 ≤ len out ≤ 4)%Z ∧ amino out.
Proof.
  intros Hv Hn. split_cases Hv; simpl in *;
    (assert (n = 0 ∨ n = 1 ∨ n = 2)%Z as [-> | [-> | ->]] by (unfold len in Hn; simpl in Hn; lia));
    (split_and!; [eexists; reflexivity | vm_compute; discriminate
                 | vm_compute; discriminate | solve_amino]).
Qed.

(** The D segment trimmed twice by up to 2 characters keeps at least one. *)
Lemma d_trimmed_shape (d : string * string) (n1 n2 : Z) (once out : string) :
  d ∈ TRBD_SEGMENTS → (0 ≤ n1 ≤ Z.min 2 (len d.2))%Z →
  once = string_of_list_ascii
           (take (Z.to_nat (len d.2 - n1)) (list_ascii_of_string d.2)) →
  (0 ≤ n2 ≤ Z.min 2 (len once))%Z →
  out = string_of_list_ascii
          (take (Z.to_nat (len once - n2)) (list_ascii_of_string once)) →
  (1 ≤ len out ≤ 5)%Z ∧ amino out.
Proof.
  intros Hd Hn1 -> Hn2 ->. split_cases Hd; simpl in *;
    (assert (n1 = 0 ∨ n1 = 1 ∨ n1 = 2)%Z as [-> | [-> | ->]]
       by (unfold len in Hn1; simpl in Hn1; lia));
    (assert (n2 = 0 ∨ n2 = 1 ∨ n2 = 2)%Z as [-> | [-> | ->]]
       by (unfold len in Hn2; simpl in Hn2; lia));
    (split_and!; [vm_compute; discriminate | vm_compute; discriminate | solve_amino]).
Qed.

(** The J suffix trimmed at the front by up to 2 characters keeps its
    last two. *)
Lemma j_trimmed_shape (j : string * string) (start : Z) :
  j ∈ TRBJ_SUFFIXES → (0 ≤ start ≤ 2)%Z →
  (∃ init, slice_from j.2 start = init +:+ "YF") ∧
  (2 ≤ len (slice_from j.2 start) ≤ 6)%Z ∧ amino (slice_from j.2 start).
Proof.
  intros Hj Hs.
  assert (start = 0 ∨ start = 1 ∨ start = 2)%Z as [-> | [-> | ->]] by lia;
    split_cases Hj;
    (split_and!; [ | vm_compute; discriminate | vm_compute; discriminate | solve_amino]).
  all: vm_compute.
  all: first [ by exists "YEQ" | by exists "FGTQ" | by exists "EQ" | by exists "EQ"
             | by exists "GTQ" | by exists "Q" | by exists "TQ" | by exists "" ].
Qed.

(** [generate_cdr3b_realistic] never raises.  The sequence it returns
    starts with [CA] and ends with [YF], has between 5 and 21 characters,
    all of them amino-acid letters, and the dictionary it returns maps
    [V], [D] and [J] to gene names of the three tables. *)
Theorem generate_cdr3b_realistic_shape (g : Random) :
  ∃ cdr3b genes g',
    generate_cdr3b_realistic g = inr ((cdr3b, genes), g') ∧
    (∃ rest, cdr3b = "CA" +:+ rest) ∧ (∃ init, cdr3b = init +:+ "YF") ∧
    (5 ≤ len cdr3b ≤ 21)%Z ∧ amino cdr3b ∧
    ∃ v d j, v ∈ TRBV_MOTIFS ∧ d ∈ TRBD_SEGMENTS ∧ j ∈ TRBJ_SUFFIXES ∧
      genes !! "V" = Some v.1 ∧ genes !! "D" = Some d.1 ∧ genes !! "J" = Some j.1.
Proof.
  unfold generate_cdr3b_realistic, bind.
  destruct (choice_spec TRBV_MOTIFS g) as (v & g1 & -> & Hv); [done |]. cbv beta iota.
  destruct (choice_spec TRBD_SEGMENTS g1) as (d & g2 & -> & Hd); [done |]. cbv beta iota.
  destruct (choice_spec TRBJ_SUFFIXES g2) as (j & g3 & -> & Hj); [done |]. cbv beta iota.
  destruct (random_deletion_spec v.2 2 g3) as (nv & vt & g4 & -> & Hnv & Hvt); [done |].
  cbv beta iota.
  destruct (random_deletion_spec d.2 2 g4) as (n1 & d1 & g5 & -> & Hn1 & Hd1); [done |].
  cbv beta iota.
  destruct (random_deletion_spec d1 2 g5) as (n2 & dt & g6 & -> & Hn2 & Hdt); [done |].
  cbv beta iota.
  destruct (randint_spec 0 2 g6) as (start & g7 & -> & Hstart); [done |]. cbv beta iota.
  destruct (random_insertion_spec 3 g7) as (i1 & g8 & -> & Hi1 & Ha1); [done |].
  cbv beta iota.
  destruct (random_insertion_spec 3 g8) as (i2 & g9 & -> & Hi2 & Ha2); [done |].
  cbv beta iota. unfold ret.
  destruct (v_trimmed_shape v nv Hv Hnv) as ((vrest & Hvpre) & Hvlen & Hva).
  rewrite <- Hvt in Hvpre, Hvlen, Hva.
  destruct (d_trimmed_shape d n1 n2 d1 dt Hd Hn1 Hd1 Hn2 Hdt) as [Hdlen Hda].
  destruct (j_trimmed_shape j start Hj Hstart) as ((jinit & Hjsuf) & Hjlen & Hja).
  assert (0 ≤ len i1 ∧ 0 ≤ len i2)%Z as [? ?] by (unfold len; lia).
  do 3 eexists. split; [done |]. split_and!.
  - exists (vrest +:+ i1 +:+ dt +:+ i2 +:+ slice_from j.2 start).
    by rewrite Hvpre, string_app_assoc.
  - exists (vt +:+ i1 +:+ dt +:+ i2 +:+ jinit).
    by rewrite Hjsuf, !string_app_assoc.
  - rewrite !len_app. lia.
  - rewrite !len_app. lia.
  - rewrite !amino_app. done.
  - exists v, d, j. split_and!; [done | done | done | ..]; by simplify_map_eq.
Qed.

Lemma random_strings_loop_spec (alphabet : list ascii) (n : nat) (length : Z) (g : Random) :
  alphabet ≠ [] →
  ∃ l g', random_strings_loop alphabet n length g = inr (l, g') ∧
    List.length l = n ∧
    Forall (λ s, String.length s = Z.to_nat length ∧
                 Forall (λ c, c ∈ alphabet) (list_ascii_of_string s)) l.
Proof.
  intros Hne. revert g. induction n as [|n IH]; intros g; simpl.
  - exists [], g. done.
  - unfold bind at 1.
    destruct (choices_spec alphabet length g Hne) as (chars & g1 & -> & Hlen & Hall).
    unfold bind. destruct (IH g1) as (l & g2 & -> & Hl & Hforall).
    unfold ret. do 2 eexists. split; [done |]. split; [simpl; lia |].
    constructor; [|done]. split.
    + by rewrite string_length_of_list.
    + by rewrite list_ascii_of_string_of_list_ascii.
Qed.

(** [generate_random_strings(n, length)] never raises: it returns [n]
    strings (none when [n ≤ 0]), each of [length] characters (empty when
    [length ≤ 0]), all of them amino-acid letters. *)
Theorem generate_random_strings_shape (n length : Z) (g : Random) :
  ∃ l g', generate_random_strings n length g = inr (l, g') ∧
    List.length l = Z.to_nat n ∧
    Forall (λ s, String.length s = Z.to_nat length ∧ amino s) l.
Proof.
  unfold generate_random_strings.
  by apply random_strings_loop_spec.
Qed.

End generators.

(** ** The extractor and the matrix on the modelled host engine *)

Section sre_claims.
Local Existing Instance Sre.engine.

Lemma sre_compile_necessary (regex : string) (pattern : Pattern) :
  re_compile regex = Ok pattern →
  (∀ p, Sre.parse regex = Ok p →
        Sre.has_flag (state_flags p) SRE_FLAG_IGNORECASE = false) →
  ∃ kmers, regex_literal_3mers regex = Ok kmers ∧ necessary kmers pattern.
Proof.
  intros Hc Hcs. simpl in Hc. unfold Sre.compile in Hc.
  destruct (Sre.parse regex) as [p|] eqn:Hp; [simpl in Hc | done].
  injection Hc as <-. exists (literal_3mers (data p)). split.
  - unfold regex_literal_3mers. simpl. by rewrite Hp.
  - apply sre_necessary. by apply Hcs.
Qed.

(** On the modelled engine, for a pattern that parses without the
    [IGNORECASE] flag, every extracted k-mer is a contiguous substring of
    every string the compiled pattern full-matches. *)
Theorem sre_extracted_kmers_necessary (regex : string) (p : SubPattern)
    (kmers : gset string) (pattern : Pattern) (s km : string) :
  Sre.parse regex = Ok p →
  Sre.has_flag (state_flags p) SRE_FLAG_IGNORECASE = false →
  regex_literal_3mers regex = Ok kmers → re_compile regex = Ok pattern →
  fullmatch pattern s = true → km ∈ kmers → substring_of km s.
Proof.
  intros Hp Hf Hk Hc Hm Hkm.
  destruct (sre_compile_necessary regex pattern Hc) as (kmers' & Hk' & Hnec).
  { intros p' Hp'. congruence. }
  assert (kmers' = kmers) as -> by congruence. by eapply Hnec.
Qed.


End sre_claims.

(** ** Instances of the further properties *)

Section more_instances.
Local Existing Instance Sre.engine.
Import Generators.

(** The key [CDE] of the index of the test corpus. *)
Lemma build_3mer_index_keys_witness :
  (String.length "CDE" = 3 ∧
   ∃ i s, ["ABCDE"; "CDEFG"; "XYZAB"] !! i = Some s ∧ substring_of "CDE" s) ∧
  ({[0; 1]} : gset nat) ≠ ∅.
Proof.
  split.
  - apply (proj1 (build_3mer_index_keys ["ABCDE"; "CDEFG"; "XYZAB"] "CDE")).
    exists {[0; 1]}. vm_compute. reflexivity.
  - apply (proj2 (build_3mer_index_keys ["ABCDE"; "CDEFG"; "XYZAB"] "CDE")).
    vm_compute. reflexivity.
Defined.

Lemma two_kmers_length (km : string) : km ∈ ["ABC"; "CDE"] → String.length km = 3.
Proof.
  intros Hkm. apply elem_of_cons in Hkm as [-> | Hkm]; [done |].
  apply elem_of_cons in Hkm as [-> | Hkm]; [done |]. by apply not_elem_of_nil in Hkm.
Qed.

(** The query of [ABC] and [CDE] on the corpus of the query test. *)
Lemma query_3mers_contains_witness :
  ∃ ids, query_3mers (build_3mer_index ["ABCDE"; "CDEFG"; "ABCFG"]) ["ABC"; "CDE"] = Ok ids ∧
    ∀ i, i ∈ ids ↔
      ∃ s, ["ABCDE"; "CDEFG"; "ABCFG"] !! i = Some s ∧
           ∀ km, km ∈ ["ABC"; "CDE"] → substring_of km s.
Proof.
  apply (query_3mers_contains ["ABCDE"; "CDEFG"; "ABCFG"] ["ABC"; "CDE"]).
  - discriminate.
  - exact two_kmers_length.
Defined.

(** A k-mer of four characters among the listed ones. *)
Lemma query_3mers_wrong_length_witness :
  query_3mers (build_3mer_index ["ABCDE"; "CDEFG"; "ABCFG"]) ["ABC"; "ABCD"] = Ok ∅.
Proof.
  apply (query_3mers_wrong_length ["ABCDE"; "CDEFG"; "ABCFG"] ["ABC"; "ABCD"] "ABCD").
  - apply elem_of_cons. right. apply elem_of_cons. by left.
  - simpl. lia.
Defined.

(** The same k-mers in another order, one of them twice. *)
Lemma query_3mers_same_set_witness :
  query_3mers (build_3mer_index ["ABCDE"; "CDEFG"; "ABCFG"]) ["ABC"; "CDE"] =
  query_3mers (build_3mer_index ["ABCDE"; "CDEFG"; "ABCFG"]) ["CDE"; "ABC"; "CDE"].
Proof.
  apply query_3mers_same_set. intros km. rewrite !elem_of_cons. tauto.
Defined.

Lemma query_3mers_app_witness :
  ∃ ids ids',
    query_3mers (build_3mer_index ["ABCDE"; "CDEFG"; "ABCFG"]) ["ABC"] = Ok ids ∧
    query_3mers (build_3mer_index ["ABCDE"; "CDEFG"; "ABCFG"]) ["CDE"] = Ok ids' ∧
    query_3mers (build_3mer_index ["ABCDE"; "CDEFG"; "ABCFG"]) (["ABC"] ++ ["CDE"])
      = Ok (ids ∩ ids').
Proof. apply query_3mers_app; discriminate. Defined.

Lemma cass_kmers_in_string (km : string) :
  km ∈ ({["CAS"; "ASS"]} : gset string) → substring_of km "CASSYEQYF".
Proof.
  intros Hkm. apply elem_of_union in Hkm as [Hkm | Hkm];
    apply elem_of_singleton in Hkm; subst km.
  - by exists "", "SYEQYF".
  - by exists "C", "YEQYF".
Qed.

(** C3 at a batch whose first pattern does not parse: its row is zero and
    the row of the second pattern is filled. *)
Lemma match_regexes_shape_witness :
  ∃ mat, match_regexes ["[INVALID"; "CASS.*"] ["CASSYEQYF"; "CASRNEQYF"] = Ok mat ∧
    shape mat = (2, 2) ∧ (∀ j, entry mat 0 j = 0%Z) ∧ entry mat 1 0 = 1%Z.
Proof.
  destruct (match_regexes_shape ["[INVALID"; "CASS.*"] ["CASSYEQYF"; "CASRNEQYF"])
    as (mat & Hm & Hshape & Hzero & Hrows & _).
  exists mat. split_and!; [exact Hm | exact Hshape | |].
  - apply (Hzero 0 "[INVALID" eq_refl).
    left. exists (re_error "unterminated character set"). vm_compute. reflexivity.
  - assert (regex_literal_3mers "CASS.*" = Ok ({["CAS"; "ASS"]} : gset string)) as Hk
      by (vm_compute; reflexivity).
    apply (proj2 (Hrows 1 "CASS.*" _
             (Sre.compile_seq 32
                [LITERAL "C"; LITERAL "A"; LITERAL "S"; LITERAL "S";
                 MAX_REPEAT 0 None [ANY]])
             eq_refl Hk eq_refl 0 "CASSYEQYF" eq_refl)).
    split; [exact cass_kmers_in_string | vm_compute; reflexivity].
Defined.

(** The cell of [ABC.*] and [ABCDEF] in the batch of the test suite. *)
Lemma match_regexes_cell_witness :
  ∃ mat, match_regexes ["ABC.*"; ".*DEF"] ["ABCXYZ"; "XYZDEF"; "ABCDEF"; "XYZ"] = Ok mat ∧
    (entry mat 0 2 = 1%Z ↔
     ∃ kmers pattern,
       regex_literal_3mers "ABC.*" = Ok kmers ∧ re_compile "ABC.*" = Ok pattern ∧
       (∀ km, km ∈ kmers → substring_of km "ABCDEF") ∧
       fullmatch pattern "ABCDEF" = true).
Proof.
  apply (match_regexes_cell ["ABC.*"; ".*DEF"] ["ABCXYZ"; "XYZDEF"; "ABCDEF"; "XYZ"] 0 2);
    reflexivity.
Defined.

Lemma match_regexes_cellwise_witness :
  ∃ mat mat1,
    match_regexes ["ABC.*"; ".*DEF"] ["ABCXYZ"; "XYZDEF"; "ABCDEF"; "XYZ"] = Ok mat ∧
    match_regexes [".*DEF"] ["XYZDEF"] = Ok mat1 ∧
    entry mat 1 1 = entry mat1 0 0.
Proof.
  apply (match_regexes_cellwise ["ABC.*"; ".*DEF"] ["ABCXYZ"; "XYZDEF"; "ABCDEF"; "XYZ"] 1 1);
    reflexivity.
Defined.

Lemma Ok_inj {A} (a b : A) : Ok a = Ok b → a = b.
Proof. by intros [= ->]. Qed.

(** The cell of [.*DEF] and [ABCDEF] holds a 1, so it is inside the shape. *)
Lemma match_regexes_binary_witness :
  ∃ mat, match_regexes ["ABC.*"; ".*DEF"] ["ABCXYZ"; "XYZDEF"; "ABCDEF"; "XYZ"] = Ok mat ∧
    1 < 2 ∧ 2 < 4.
Proof.
  destruct (match_regexes_binary ["ABC.*"; ".*DEF"] ["ABCXYZ"; "XYZDEF"; "ABCDEF"; "XYZ"])
    as (mat & Hm & Hcells).
  exists mat. split; [exact Hm |].
  apply (proj2 (Hcells 1 2)). apply Ok_inj in Hm. subst mat. vm_compute. reflexivity.
Defined.

Lemma match_regexes_true_match_witness :
  ∃ regex pattern s,
    ["ABC.*"; ".*DEF"] !! 1 = Some regex ∧
    ["ABCXYZ"; "XYZDEF"; "ABCDEF"; "XYZ"] !! 2 = Some s ∧
    re_compile regex = Ok pattern ∧ fullmatch pattern s = true.
Proof.
  destruct (match_regexes_true_match ["ABC.*"; ".*DEF"]
              ["ABCXYZ"; "XYZDEF"; "ABCDEF"; "XYZ"]) as (mat & Hm & Hcells).
  apply Hcells. apply Ok_inj in Hm. subst mat. vm_compute. reflexivity.
Defined.

Lemma sample_case_sensitive (regex : string) (p : SubPattern) :
  regex ∈ ["ABC.*"; ".*DEF"] → Sre.parse regex = Ok p →
  Sre.has_flag (state_flags p) SRE_FLAG_IGNORECASE = false.
Proof.
  intros Hin Hp. apply elem_of_cons in Hin as [-> | Hin].
  - vm_compute in Hp. by injection Hp as <-.
  - apply elem_of_cons in Hin as [-> | Hin]; [|by apply not_elem_of_nil in Hin].
    vm_compute in Hp. by injection Hp as <-.
Qed.

Lemma match_regexes_exhaustive_when_necessary_witness :
  ∃ mat, match_regexes ["ABC.*"; ".*DEF"] ["ABCXYZ"; "XYZDEF"; "ABCDEF"; "XYZ"] = Ok mat ∧
    ∀ i j regex s, ["ABC.*"; ".*DEF"] !! i = Some regex →
      ["ABCXYZ"; "XYZDEF"; "ABCDEF"; "XYZ"] !! j = Some s →
      (entry mat i j = 1%Z ↔
       ∃ pattern, re_compile regex = Ok pattern ∧ fullmatch pattern s = true).
Proof.
  apply match_regexes_exhaustive_when_necessary. intros regex pattern Hin Hc.
  apply sre_compile_necessary; [exact Hc |].
  intros p. by apply sample_case_sensitive.
Defined.

(** The 3-mer [ABC] of the pattern [ABC.*] in the string [ABCXYZ]. *)
Lemma sre_extracted_kmers_necessary_witness : substring_of "ABC" "ABCXYZ".
Proof.
  apply (sre_extracted_kmers_necessary "ABC.*"
           {| state_flags := 32;
              data := [LITERAL "A"; LITERAL "B"; LITERAL "C"; MAX_REPEAT 0 None [ANY]] |}
           {["ABC"]}
           (Sre.compile_seq 32 [LITERAL "A"; LITERAL "B"; LITERAL "C"; MAX_REPEAT 0 None [ANY]])
           "ABCXYZ" "ABC").
  - reflexivity.
  - reflexivity.
  - vm_compute. reflexivity.
  - reflexivity.
  - vm_compute. reflexivity.
  - by apply elem_of_singleton.
Defined.



Lemma sample_patterns_compile (regex : string) :
  regex ∈ ["CASS.*"; ".*YEQYF"] →
  ¬ raises (regex_literal_3mers regex) ∧ ¬ raises (re_compile regex).
Proof.
  intros Hin. apply elem_of_cons in Hin as [-> | Hin].
  - split; intros [e He]; vm_compute in He; discriminate.
  - apply elem_of_cons in Hin as [-> | Hin]; [|by apply not_elem_of_nil in Hin].
    split; intros [e He]; vm_compute in He; discriminate.
Qed.

(** The id lists of the test suite. *)
Lemma against_cdr3s_returns_witness :
  ∃ out mat,
    match_regexes_against_cdr3s ["CASS.*"; ".*YEQYF"]
      ["CASSXYZF"; "XYZTYEQYF"; "CASSYEQYF"; "RANDOM"] = Ok out ∧
    match_regexes ["CASS.*"; ".*YEQYF"]
      ["CASSXYZF"; "XYZTYEQYF"; "CASSYEQYF"; "RANDOM"] = Ok mat ∧
    out.*1 = ["CASS.*"; ".*YEQYF"] ∧
    ∀ i regex ids, out !! i = Some (regex, ids) →
      NoDup ids ∧ ∀ j, j ∈ ids ↔ entry mat i j = 1%Z.
Proof. apply against_cdr3s_returns. exact sample_patterns_compile. Defined.

(** A batch whose second pattern does not parse. *)
Lemma against_cdr3s_first_failure_witness :
  match_regexes_against_cdr3s ["CASS.*"; "[INVALID"; ".*YEQYF"] ["CASSYEQYF"; "CASRNEQYF"]
  = Raise (re_error "unterminated character set").
Proof.
  apply (against_cdr3s_first_failure _ _ ["CASS.*"] [".*YEQYF"] "[INVALID").
  - reflexivity.
  - intros r Hr. apply sample_patterns_compile, elem_of_cons. left.
    apply elem_of_cons in Hr as [-> | Hr]; [done | by apply not_elem_of_nil in Hr].
  - left. vm_compute. reflexivity.
Defined.

(** The call of the generator test, and a call with a negative bound. *)
Lemma random_deletion_prefix_witness :
  (∃ out g', random_deletion "ABCDEF" 2 sample_random = inr (out, g') ∧
     (∃ rest, "ABCDEF" = out +:+ rest) ∧
     (len "ABCDEF" - 2 ≤ len out ≤ len "ABCDEF")%Z) ∧
  (∃ msg, random_deletion "ABCDEF" (-1) sample_random = inl (ValueError msg)).
Proof.
  split.
  - apply (proj1 (random_deletion_prefix "ABCDEF" 2 sample_random)). lia.
  - apply (proj2 (random_deletion_prefix "ABCDEF" (-1) sample_random)). lia.
Defined.

Lemma random_insertion_amino_witness :
  (∃ out g', random_insertion 5 sample_random = inr (out, g') ∧
     (len out ≤ 5)%Z ∧ amino out) ∧
  (∃ msg, random_insertion (-1) sample_random = inl (ValueError msg)).
Proof.
  split.
  - apply (proj1 (random_insertion_amino 5 sample_random)). lia.
  - apply (proj2 (random_insertion_amino (-1) sample_random)). lia.
Defined.

(** The generators run on the sample state. *)
Example generate_cdr3b_realistic_sample :
  ∃ genes g', generate_cdr3b_realistic sample_random
                = inr (("CASSGGHQAEQYF", genes), g') ∧
    genes !! "V" = Some "TRBV5-1" ∧ genes !! "D" = Some "TRBD1" ∧
    genes !! "J" = Some "TRBJ2-7".
Proof. do 2 eexists. split_and!; vm_compute; reflexivity. Qed.

Example generate_random_strings_sample :
  ∃ g', generate_random_strings 3 4 sample_random = inr (["EMVF"; "NWGP"; "YHQA"], g').
Proof. eexists. vm_compute. reflexivity. Qed.

End more_instances.
